(** * upic-github: the proxy cache of [index.js]

    A shallow embedding of the cache management functions and of the
    [GET /proxy/:filename] handler of [index.js], together with the
    properties of the cache subsystem that the specification states.

    Conventions of the embedding.
    - An absolute POSIX path is the list of its components plus a flag for a
      trailing separator: ["/srv/app/cache/a.png"] is
      [{| segs := ["srv"; "app"; "cache"; "a.png"]; trailing := false |}].
    - The file system, the clock, the remote store and the faults an I/O call
      can meet form the [World]; the code runs in a state-and-exception monad
      over it.  A handler or a sweep runs without interleaving with another
      one, and the clock stands still while it runs.
    - Faults are part of the world: a call that fails keeps failing until the
      world is changed.
    - Writing and deleting a file leave the timestamp of its directory as it
      is.
    - JavaScript numbers that hold times and sizes are integers ([Z]); the
      size in megabytes is an exact rational.  [console.log] output is not
      part of the model; the world keeps a log of the calls to the
      collaborators instead.
    - [res.sendFile], [res.send] and [res.status().json()] are response
      values; what Express does to deliver them is outside the model.
    - The periodic sweep calls [cleanupExpiredCacheFiles] and nothing else;
      it has no definition of its own.
    - The second half of the definitions covers the rest of [index.js] (the
      access gate, the upload route, the start-up code) and the client
      [test-upload.js]; [pngquant] and the GitHub API are functions given to
      the upload route. *)

From Stdlib Require Import ZArith QArith Lia Ascii String.
From stdpp Require Import gmap strings list fin_maps pretty.

Local Open Scope string_scope.
Local Open Scope Z_scope.

(** ** Node's [path] module (POSIX flavour) *)

Module NodePath.

Record path := mkPath { segs : list string; trailing : bool }.

#[global] Instance path_eq_dec : EqDecision path.
Proof. solve_decision. Defined.

Definition is_slash (c : ascii) : bool := bool_decide (c = "/"%char).

(** [s.split(sep)] for a one-character separator. *)
Fixpoint split (sep : ascii) (s : string) : list string :=
  match s with
  | EmptyString => [EmptyString]
  | String c r =>
      if bool_decide (c = sep) then EmptyString :: split sep r
      else match split sep r with
           | h :: t => String c h :: t
           | [] => [String c EmptyString]
           end
  end.

Fixpoint has_slash (s : string) : bool :=
  match s with
  | EmptyString => false
  | String c r => is_slash c || has_slash r
  end.

Fixpoint ends_with_slash (s : string) : bool :=
  match s with
  | EmptyString => false
  | String c EmptyString => is_slash c
  | String _ r => ends_with_slash r
  end.

(** One component of [normalizeString] with [allowAboveRoot = false]: the
    stack [res] holds the components kept so far, innermost first. *)
Definition normalizeStep (res : list string) (seg : string) : list string :=
  if bool_decide (seg = "") then res
  else if bool_decide (seg = ".") then res
  else if bool_decide (seg = "..") then tail res
  else seg :: res.

Definition normalizeString (l : list string) : list string :=
  rev (fold_left normalizeStep l []).

(** [path.join(base, rel)] for an absolute [base] given by its components:
    empty arguments are dropped, the rest is joined with ["/"] and
    normalised; a trailing separator of the joined string is kept. *)
Definition join (base : list string) (rel : string) : path :=
  {| segs := normalizeString (base ++ split "/" rel);
     trailing := ends_with_slash rel |}.

(** The last portion of a string path: trailing separators are ignored. *)
Definition basename (s : string) : string :=
  default "" (last (filter (λ x, x ≠ "") (split "/" s))).

End NodePath.

Module JSString.

Definition lower (c : ascii) : ascii :=
  let n := nat_of_ascii c in
  if (65 <=? n)%nat && (n <=? 90)%nat then ascii_of_nat (n + 32) else c.

(** [s.toLowerCase()] on ASCII letters. *)
Fixpoint toLowerCase (s : string) : string :=
  match s with
  | EmptyString => EmptyString
  | String c r => String (lower c) (toLowerCase r)
  end.

(** The suffix of [s] that starts at its last ["."], if it has one. *)
Fixpoint fromLastDot (s : string) : option string :=
  match s with
  | EmptyString => None
  | String c r =>
      match fromLastDot r with
      | Some e => Some e
      | None => if bool_decide (c = "."%char) then Some s else None
      end
  end.

(** [path.extname(s)]: from the last ["."] of the last portion of [s];
    empty when there is none, when it is the first character of that
    portion, or when the portion is [".."]. *)
Definition extname (s : string) : string :=
  let b := NodePath.basename s in
  match fromLastDot b with
  | None => ""
  | Some e =>
      if bool_decide (String.length e = String.length b) || bool_decide (b = "..")
      then "" else e
  end.

End JSString.

(** ** ECMAScript dates

    Time values are milliseconds since the epoch.  The local time zone is a
    fixed offset [tza] (milliseconds east of UTC). *)

Module JSDate.

Local Open Scope Z_scope.

Definition msPerDay : Z := 86400000.

Definition Day (t : Z) : Z := t / msPerDay.
Definition TimeWithinDay (t : Z) : Z := t mod msPerDay.

(** Day number of the first day of month [m] (0 = January) of year [y],
    in the proleptic Gregorian calendar, counted from 1970-01-01. *)
Definition DayFromYearMonth (y m : Z) : Z :=
  let y' := if m <? 2 then y - 1 else y in
  let era := y' / 400 in
  let yoe := y' - era * 400 in
  let mp := if m <? 2 then m + 10 else m - 2 in
  let doy := (153 * mp + 2) / 5 in
  era * 146097 + (yoe * 365 + yoe / 4 - yoe / 100 + doy) - 719468.

(** Year, month (0-based) and day of the month (1-based) of day number [d]. *)
Definition CivilFromDay (d : Z) : Z * Z * Z :=
  let z := d + 719468 in
  let era := z / 146097 in
  let doe := z - era * 146097 in
  let yoe := (doe - doe / 1460 + doe / 36524 - doe / 146096) / 365 in
  let doy := doe - (365 * yoe + yoe / 4 - yoe / 100) in
  let mp := (5 * doy + 2) / 153 in
  let dd := doy - (153 * mp + 2) / 5 + 1 in
  let m := if mp <? 10 then mp + 2 else mp - 10 in
  (yoe + era * 400 + (if m <? 2 then 1 else 0), m, dd).

Definition YearFromTime (t : Z) : Z := (CivilFromDay (Day t)).1.1.
Definition MonthFromTime (t : Z) : Z := (CivilFromDay (Day t)).1.2.
Definition DateFromTime (t : Z) : Z := (CivilFromDay (Day t)).2.

(** [MakeDay(year, month, date)]: [month] may lie outside [0..11]. *)
Definition MakeDay (year month date : Z) : Z :=
  let ym := year + month / 12 in
  let mn := month mod 12 in
  DayFromYearMonth ym mn + date - 1.

Definition MakeDate (day time : Z) : Z := day * msPerDay + time.

Definition LocalTime (tza t : Z) : Z := t + tza.
Definition UTC (tza t : Z) : Z := t - tza.

(** [d.getMonth()] and the time value after [d.setMonth(month)]. *)
Definition getMonth (tza t : Z) : Z := MonthFromTime (LocalTime tza t).

Definition setMonth (tza t month : Z) : Z :=
  let lt := LocalTime tza t in
  UTC tza (MakeDate (MakeDay (YearFromTime lt) month (DateFromTime lt))
                    (TimeWithinDay lt)).

End JSDate.

Import NodePath JSString JSDate.

(** ** The world the server runs in *)

(** What a path of the file system holds.  A regular file has the size of its
    content; a directory has the size the file system reports for it. *)
Inductive node :=
  | RegFile (mtime : Z) (data : list Byte.byte)
  | SubDir (mtime : Z) (size : Z).

(** [fs.Stats], restricted to the fields the code reads. *)
Record Stats := mkStats { mtime : Z; size : Z }.

Definition stats_of (n : node) : Stats :=
  match n with
  | RegFile m d => mkStats m (Z.of_nat (length d))
  | SubDir m s => mkStats m s
  end.

(** Faults of the platform (permissions, I/O errors): a call on a path that
    is marked fails whatever the file system holds. *)
Record Faults := mkFaults {
  stat_fails : path → bool;
  unlink_fails : path → bool;
  write_fails : path → bool;
  readdir_fails : path → bool
}.

(** The answer of the remote store to a GET. *)
Record Response := mkResponse { ok : bool; status : Z; body : list Byte.byte }.

(** Invocations of the collaborators, most recent first. *)
Inductive call :=
  | CallFetch (filename : string)     (* [fetchFromGitHubRaw(filename)] *)
  | HttpGet (url : string)            (* [fetch(url)] *)
  | CallCleanup.                      (* [cleanupExpiredCacheFiles()] *)

Record World := mkWorld {
  now : Z;                                (* the clock, [Date.now()] *)
  fs : gmap (list string) node;           (* path components to node *)
  faults : Faults;
  remote : string → option Response;      (* [None]: the request itself fails *)
  calls : list call
}.

Definition set_fs (f : gmap (list string) node) (w : World) : World :=
  mkWorld (now w) f (faults w) (remote w) (calls w).

Definition set_now (t : Z) (w : World) : World :=
  mkWorld t (fs w) (faults w) (remote w) (calls w).

Definition log_call (c : call) (w : World) : World :=
  mkWorld (now w) (fs w) (faults w) (remote w) (c :: calls w).

(** ** Computations: state and exceptions *)

Inductive exn := Error (message : string).

Inductive outcome (A : Type) :=
  | Return (a : A)
  | Throw (e : exn).
Arguments Return {A} a.
Arguments Throw {A} e.

Definition JS (A : Type) : Type := World → outcome A * World.

#[global] Instance JS_ret : MRet JS := λ A a w, (Return a, w).

#[global] Instance JS_bind : MBind JS := λ A B f m w,
  match m w with
  | (Return a, w') => f a w'
  | (Throw e, w') => (Throw e, w')
  end.

Definition throw {A} (e : exn) : JS A := λ w, (Throw e, w).

(** A collaborator records that it is entered. *)
Definition invoked (c : call) : JS unit := λ w, (Return (), log_call c w).

(** [try { body } catch (e) { handler }]: what [body] changed before it
    threw stays changed. *)
Definition try_catch {A} (body : JS A) (handler : exn → JS A) : JS A := λ w,
  match body w with
  | (Return a, w') => (Return a, w')
  | (Throw e, w') => handler e w'
  end.

(** *** The [fs] module *)

Definition is_dir (n : node) : bool :=
  match n with SubDir _ _ => true | RegFile _ _ => false end.

(** What [stat] finds at a path: a path with a trailing separator only
    resolves to a directory. *)
Definition lookup_path (w : World) (p : path) : option node :=
  if stat_fails (faults w) p then None
  else match fs w !! segs p with
       | Some n => if trailing p && negb (is_dir n) then None else Some n
       | None => None
       end.

Definition stat (p : path) : JS Stats := λ w,
  match lookup_path w p with
  | Some n => (Return (stats_of n), w)
  | None => (Throw (Error "ENOENT: no such file or directory, stat"), w)
  end.

Definition existsSync (p : path) : JS bool := λ w,
  (Return (bool_decide (is_Some (lookup_path w p))), w).

(** A legal name of a directory entry. *)
Definition valid_name (n : string) : bool :=
  negb (has_slash n) && bool_decide (n ≠ "")
  && bool_decide (n ≠ ".") && bool_decide (n ≠ "..").

Definition child (d p : list string) : option string :=
  if bool_decide (take (length d) p = d) then
    match drop (length d) p with
    | [n] => if valid_name n then Some n else None
    | _ => None
    end
  else None.

Definition children (f : gmap (list string) node) (d : list string) : list string :=
  omap (child d) (map_to_list f).*1.

Definition readdir (d : path) : JS (list string) := λ w,
  if readdir_fails (faults w) d
  then (Throw (Error "EACCES: permission denied, scandir"), w)
  else (Return (children (fs w) (segs d)), w).

Definition can_unlink (w : World) (p : path) : bool :=
  negb (unlink_fails (faults w) p) && negb (trailing p)
  && match fs w !! segs p with
     | Some (RegFile _ _) => true
     | _ => false
     end.

Definition unlink (p : path) : JS unit := λ w,
  if can_unlink w p then (Return (), set_fs (delete (segs p) (fs w)) w)
  else (Throw (Error "unlink failed"), w).

(** The directory a path lies in exists: the root always does. *)
Definition parent_is_dir (w : World) (p : path) : bool :=
  match removelast (segs p) with
  | [] => true
  | parent => match fs w !! parent with
              | Some (SubDir _ _) => true
              | _ => false
              end
  end.

Definition can_write (w : World) (p : path) : bool :=
  negb (write_fails (faults w) p) && negb (trailing p)
  && parent_is_dir w p
  && match fs w !! segs p with
     | Some (SubDir _ _) => false
     | _ => true
     end.

Definition writeFileSync (p : path) (data : list Byte.byte) : JS unit := λ w,
  if can_write w p
  then (Return (), set_fs (<[segs p := RegFile (now w) data]> (fs w)) w)
  else (Throw (Error "writeFileSync failed"), w).

(** [read(key)] of the cache store: the bytes of the regular file. *)
Definition readFile (w : World) (p : path) : option (list Byte.byte) :=
  match lookup_path w p with
  | Some (RegFile _ d) => Some d
  | _ => None
  end.

(** *** The clock and the remote store *)

Definition Date_now : JS Z := λ w, (Return (now w), w).

Definition fetch (url : string) : JS Response := λ w,
  match remote w url with
  | Some r => (Return r, log_call (HttpGet url) w)
  | None => (Throw (Error "request failed"), log_call (HttpGet url) w)
  end.

(** ** The server *)

(** The process environment, read once at startup. *)
Record Env := mkEnv {
  dirname : list string;               (* [__dirname], an absolute path *)
  GITHUB_REPO : option string;         (* [owner/repo/branch] *)
  env_MAX_CACHE_SIZE_MB : option Z;    (* the variable, when it is set *)
  tza : Z                              (* offset of the local time zone *)
}.

Inductive response :=
  | SendFile (p : path)                             (* [res.sendFile(p)] *)
  | Send (contentType : string) (b : list Byte.byte)  (* [res.send(b)] *)
  | StatusJson (code : Z) (error : string).         (* [res.status(c).json({error})] *)

Record ExpiredFile := mkExpired {
  ef_name : string; ef_path : path; ef_size : Z; ef_age : Z
}.

Record CleanupResult := mkCleanup { deletedCount : Z; freedSpace : Z }.

Record CacheStats := mkCacheStats {
  totalFiles : Z; totalSize : Z; totalSizeMB : Q
}.

Section Server.

Variable env : Env.

Definition CACHE_DURATION_MONTHS : Z := 3.

(** [process.env.MAX_CACHE_SIZE_MB || 1024] *)
Definition MAX_CACHE_SIZE_MB : Z := default 1024 (env_MAX_CACHE_SIZE_MB env).

Definition cacheDir : path := join (dirname env) "cache".

Definition Date_getMonth (d : Z) : Z := getMonth (tza env) d.
Definition Date_setMonth (d month : Z) : Z := setMonth (tza env) d month.

(** [const d = new Date(); d.setMonth(d.getMonth() - CACHE_DURATION_MONTHS)] *)
Definition monthsAgo (t : Z) : Z :=
  Date_setMonth t (Date_getMonth t - CACHE_DURATION_MONTHS).

Definition getCacheFilePath (filename : string) : path :=
  join (segs cacheDir) filename.

Definition isCacheValid (filePath : path) : JS bool :=
  ex ← existsSync filePath;
  if negb ex then mret false
  else
    stats ← stat filePath;
    d ← Date_now;
    let threeMonthsAgo := monthsAgo d in
    mret (threeMonthsAgo <? mtime stats).

Fixpoint expiredLoop (threeMonthsAgo : Z) (files : list string)
    (expiredFiles : list ExpiredFile) : JS (list ExpiredFile) :=
  match files with
  | [] => mret expiredFiles
  | file :: rest =>
      let filePath := join (segs cacheDir) file in
      expiredFiles' ←
        try_catch
          (stats ← stat filePath;
           if mtime stats <=? threeMonthsAgo then
             t ← Date_now;
             mret (expiredFiles ++
                   [mkExpired file filePath (size stats) (t - mtime stats)])%list
           else mret expiredFiles)
          (λ statError, mret expiredFiles);
      expiredLoop threeMonthsAgo rest expiredFiles'
  end.

Definition getExpiredCacheFiles : JS (list ExpiredFile) :=
  try_catch
    (files ← readdir cacheDir;
     d ← Date_now;
     let threeMonthsAgo := monthsAgo d in
     expiredLoop threeMonthsAgo files [])
    (λ error, mret []).

Fixpoint cleanupLoop (expiredFiles : list ExpiredFile)
    (deletedCount freedSpace : Z) : JS (Z * Z) :=
  match expiredFiles with
  | [] => mret (deletedCount, freedSpace)
  | file :: rest =>
      r ← try_catch
            (unlink (ef_path file);;
             mret (deletedCount + 1, freedSpace + ef_size file))
            (λ unlinkError, mret (deletedCount, freedSpace));
      cleanupLoop rest r.1 r.2
  end.

Definition cleanupExpiredCacheFiles : JS CleanupResult :=
  invoked CallCleanup;;
  try_catch
    (expiredFiles ← getExpiredCacheFiles;
     if bool_decide (length expiredFiles = 0%nat) then mret (mkCleanup 0 0)
     else
       r ← cleanupLoop expiredFiles 0 0;
       mret (mkCleanup r.1 r.2))
    (λ error, mret (mkCleanup 0 0)).

Fixpoint statsLoop (files : list string) (totalSize totalFiles : Z)
    : JS (Z * Z) :=
  match files with
  | [] => mret (totalSize, totalFiles)
  | file :: rest =>
      r ← try_catch
            (stats ← stat (join (segs cacheDir) file);
             mret (totalSize + size stats, totalFiles + 1))
            (λ statError, mret (totalSize, totalFiles));
      statsLoop rest r.1 r.2
  end.

Definition getCacheStats : JS CacheStats :=
  try_catch
    (files ← readdir cacheDir;
     r ← statsLoop files 0 0;
     mret (mkCacheStats r.2 r.1 (inject_Z r.1 / 1024 / 1024)%Q))
    (λ error, mret (mkCacheStats 0 0 0%Q)).

(** [arr[i]] inside a template string: a missing element prints as
    ["undefined"]. *)
Definition part (l : list string) (i : nat) : string :=
  default "undefined" (l !! i).

Definition rawUrl (repoSpec filename : string) : string :=
  let parts := split "/" repoSpec in
  ("https://raw.githubusercontent.com/" ++ part parts 0 ++ "/" ++ part parts 1
    ++ "/refs/heads/" ++ part parts 2 ++ "/" ++ filename)%string.

Definition fetchFromGitHubRaw (filename : string) : JS (list Byte.byte) :=
  invoked (CallFetch filename);;
  match GITHUB_REPO env with
  | None => throw (Error "GITHUB_REPO environment variable not set")
  | Some "" => throw (Error "GITHUB_REPO environment variable not set")
  | Some repoSpec =>
      resp ← fetch (rawUrl repoSpec filename);
      if negb (ok resp) then throw (Error "GitHub raw fetch failed")
      else mret (body resp)
  end.

Definition contentTypeFor (filename : string) : string :=
  let ext := toLowerCase (extname filename) in
  if bool_decide (ext = ".png") then "image/png"
  else if bool_decide (ext = ".jpg") || bool_decide (ext = ".jpeg") then "image/jpeg"
  else if bool_decide (ext = ".gif") then "image/gif"
  else if bool_decide (ext = ".webp") then "image/webp"
  else if bool_decide (ext = ".svg") then "image/svg+xml"
  else "application/octet-stream".

(** [stats.totalSizeMB > CONFIG.MAX_CACHE_SIZE_MB] *)
Definition overBudget (stats : CacheStats) : bool :=
  negb (Qle_bool (totalSizeMB stats) (inject_Z MAX_CACHE_SIZE_MB)).

(** [app.get('/proxy/:filename', ...)] *)
Definition proxy (filename : string) : JS response :=
  let cacheFilePath := getCacheFilePath filename in
  try_catch
    (valid ← isCacheValid cacheFilePath;
     if (valid : bool) return JS response then
       try_catch (stat cacheFilePath;; mret ()) (λ statError, mret ());;
       mret (SendFile cacheFilePath)
     else
       fileBuffer ← fetchFromGitHubRaw filename;
       writeFileSync cacheFilePath fileBuffer;;
       stats ← getCacheStats;
       (if overBudget stats then cleanupExpiredCacheFiles;; mret ()
        else mret ());;
       mret (Send (contentTypeFor filename) fileBuffer))
    (λ error, mret (StatusJson 404 "File not found or fetch failed")).

End Server.

(** ** Pure views of the code and vocabulary of the specification *)

(** A component that normalisation keeps. *)
Definition plain (seg : string) : Prop := seg ≠ "" ∧ seg ≠ "." ∧ seg ≠ "..".

(** A location lies inside a directory when it is a proper descendant. *)
Definition inside (dir : path) (p : path) : Prop :=
  ∃ rest, rest ≠ [] ∧ segs p = (segs dir ++ rest)%list.

Definition is_fetch (c : call) : bool :=
  match c with CallFetch _ => true | _ => false end.

Definition is_cleanup (c : call) : bool :=
  match c with CallCleanup => true | _ => false end.

Definition count_fetch (l : list call) : nat := length (filter is_fetch l).
Definition count_cleanup (l : list call) : nat := length (filter is_cleanup l).

Section Vocabulary.

Variable env : Env.

(** The expiry threshold at the current instant, as a duration. *)
Definition ExpiryThreshold (w : World) : Z := now w - monthsAgo env (now w).

(** The age of an entry. *)
Definition ageOf (w : World) (n : node) : Z := now w - mtime (stats_of n).

(** The size budget in bytes. *)
Definition SizeBudget : Z := MAX_CACHE_SIZE_MB env * 1024 * 1024.

(** The validity test on what [stat] finds. *)
Definition is_valid (w : World) (p : path) : bool :=
  match lookup_path w p with
  | Some n => monthsAgo env (now w) <? mtime (stats_of n)
  | None => false
  end.

(** The record the enumeration makes of one directory entry. *)
Definition expired_entry (w : World) (file : string) : option ExpiredFile :=
  let filePath := getCacheFilePath env file in
  match lookup_path w filePath with
  | Some n =>
      if mtime (stats_of n) <=? monthsAgo env (now w)
      then Some (mkExpired file filePath (size (stats_of n)) (ageOf w n))
      else None
  | None => None
  end.

(** The names [readdir(cacheDir)] yields. *)
Definition listing (w : World) : list string :=
  children (fs w) (segs (cacheDir env)).

Definition expired_list (w : World) : list ExpiredFile :=
  if readdir_fails (faults w) (cacheDir env) then []
  else omap (expired_entry w) (listing w).

(** The sizes [getCacheStats] adds up, one per entry that [stat] finds. *)
Definition stat_sizes (w : World) (files : list string) : list Z :=
  omap (λ file, size ∘ stats_of <$> lookup_path w (getCacheFilePath env file))
       files.

(** The aggregate [getCacheStats] reports. *)
Definition cache_stats (w : World) : CacheStats :=
  if readdir_fails (faults w) (cacheDir env) then mkCacheStats 0 0 0%Q
  else
    let sizes := stat_sizes w (listing w) in
    let total := foldr Z.add 0 sizes in
    mkCacheStats (Z.of_nat (length sizes)) total (inject_Z total / 1024 / 1024)%Q.

(** The outcome of the remote fetch for a key. *)
Definition fetch_result (w : World) (filename : string) : option (list Byte.byte) :=
  match GITHUB_REPO env with
  | None | Some "" => None
  | Some repoSpec =>
      match remote w (rawUrl repoSpec filename) with
      | Some resp => if ok resp then Some (body resp) else None
      | None => None
      end
  end.

(** What the remote fetch for a key adds to the log of calls. *)
Definition fetch_log (filename : string) : list call :=
  match GITHUB_REPO env with
  | None | Some "" => [CallFetch filename]
  | Some repoSpec => [HttpGet (rawUrl repoSpec filename); CallFetch filename]
  end.

Definition after_fetch (filename : string) (w : World) : World :=
  mkWorld (now w) (fs w) (faults w) (remote w) (fetch_log filename ++ calls w)%list.

(** The world once the fetched blob is stored under its key. *)
Definition after_write (filename : string) (data : list Byte.byte) (w : World)
    : World :=
  set_fs (<[segs (getCacheFilePath env filename) := RegFile (now w) data]> (fs w))
         (after_fetch filename w).

(** The world once the handler has checked the budget. *)
Definition after_maybe_sweep (w : World) : World :=
  if overBudget env (cache_stats w) then (cleanupExpiredCacheFiles env w).2
  else w.

End Vocabulary.

(** The error response of the proxy route. *)
Definition not_found : response := StatusJson 404 "File not found or fetch failed".

(** The entries of a batch whose deletion succeeds, what is left of the file
    system once they are gone, and the bytes they held. *)
Definition removed (w : World) (l : list ExpiredFile) : list ExpiredFile :=
  filter (λ e, can_unlink w (ef_path e) = true) l.

Definition delete_all (l : list ExpiredFile) (f : gmap (list string) node)
    : gmap (list string) node :=
  foldr (λ e, delete (segs (ef_path e))) f l.

Definition sum_sizes (l : list ExpiredFile) : Z := foldr Z.add 0 (ef_size <$> l).

(** ** A concrete deployment

    The server lives in [/srv/upic]; the clock reads 2024-05-31T00:00:00Z, so
    that three months ago is 2024-03-02T00:00:00Z (February has no 31st). *)

Module Scenario.

Definition env0 : Env := mkEnv ["srv"; "upic"] (Some "octo/images/main") None 0.

(** The same server with [MAX_CACHE_SIZE_MB=0]. *)
Definition env_tight : Env :=
  mkEnv ["srv"; "upic"] (Some "octo/images/main") (Some 0) 0.

Definition in_cache (name : string) : path :=
  mkPath ["srv"; "upic"; "cache"; name] false.

Definition noFaults : Faults :=
  mkFaults (λ _, false) (λ _, false) (λ _, false) (λ _, false).

(** [broken.png] cannot be examined, [locked.png] cannot be removed. *)
Definition someFaults : Faults :=
  mkFaults (λ p, bool_decide (p = in_cache "broken.png"))
           (λ p, bool_decide (p = in_cache "locked.png"))
           (λ _, false) (λ _, false).

Definition unreadableDir : Faults :=
  mkFaults (λ _, false) (λ _, false) (λ _, false) (λ _, true).

Definition readOnly : Faults :=
  mkFaults (λ _, false) (λ _, false) (λ _, true) (λ _, false).

Definition png : list Byte.byte := [Byte.x89; Byte.x50; Byte.x4e; Byte.x47].
Definition old_png : list Byte.byte := [Byte.x89; Byte.x50; Byte.x4e].

Definition t0 : Z := 1717113600000.
Definition cutoff0 : Z := 1709337600000.

Definition dirs0 : list (list string * node) :=
  [ (["srv"], SubDir 0 4096); (["srv"; "upic"], SubDir 0 4096);
    (["srv"; "upic"; "cache"], SubDir t0 4096) ].

Definition files0 : gmap (list string) node :=
  list_to_map
    (dirs0 ++
    [ (["srv"; "upic"; "cache"; "old.png"], RegFile cutoff0 old_png);
      (["srv"; "upic"; "cache"; "new.png"], RegFile (cutoff0 + 1) png);
      (["srv"; "upic"; "cache"; "broken.png"], RegFile 0 png);
      (["srv"; "upic"; "cache"; "locked.png"], RegFile 0 png);
      (["srv"; "upic"; "cache"; "sub"], SubDir 0 4096);
      (["srv"; "upic"; "index.js"], RegFile 0 png) ])%list.

(** The remote store has [a.png] and nothing else. *)
Definition remote0 (url : string) : option Response :=
  if bool_decide
       (url = "https://raw.githubusercontent.com/octo/images/refs/heads/main/a.png")
  then Some (mkResponse true 200 png)
  else Some (mkResponse false 404 []).

Definition w0 : World := mkWorld t0 files0 noFaults remote0 [].
Definition w_faulty : World := mkWorld t0 files0 someFaults remote0 [].
Definition w_unreadable : World := mkWorld t0 files0 unreadableDir remote0 [].
Definition w_readonly : World := mkWorld t0 files0 readOnly remote0 [].

(** An empty cache, and a remote store whose [a.png] has 100 bytes. *)
Definition blob100 : list Byte.byte := replicate 100 Byte.x2a.

Definition remote100 (url : string) : option Response :=
  if bool_decide
       (url = "https://raw.githubusercontent.com/octo/images/refs/heads/main/a.png")
  then Some (mkResponse true 200 blob100)
  else Some (mkResponse false 404 []).

Definition w_empty : World := mkWorld t0 (list_to_map dirs0) noFaults remote100 [].

(** A remote store that has every key. *)
Definition w_open : World :=
  mkWorld t0 files0 noFaults (λ _, Some (mkResponse true 200 png)) [].

End Scenario.

(** * The upload route and the start-up code

    The rest of [index.js]: the access gate [authenticateToken], the route
    [POST /api/upload] with [uploadToGitHub], the start-up checks and the
    start-up sweep; and the request that [test-upload.js] sends. *)

(** ** Base64, as [Buffer] reads and writes it *)

Module Base64.

Local Open Scope N_scope.

(** The character of a six-bit value and back. *)
Definition b64_char (n : N) : ascii :=
  if n <? 26 then ascii_of_N (65 + n)
  else if n <? 52 then ascii_of_N (97 + (n - 26))
  else if n <? 62 then ascii_of_N (48 + (n - 52))
  else if n =? 62 then "+"%char
  else "/"%char.

Definition b64_val (c : ascii) : option N :=
  let k := N_of_ascii c in
  if (65 <=? k) && (k <=? 90) then Some (k - 65)
  else if (97 <=? k) && (k <=? 122) then Some (k - 71)
  else if (48 <=? k) && (k <=? 57) then Some (k + 4)
  else if k =? 43 then Some 62
  else if k =? 47 then Some 63
  else None.

(** [/^[A-Za-z0-9+/]*(=|==)?$/.test(s)] *)
Fixpoint isBase64 (s : string) : bool :=
  match s with
  | EmptyString => true
  | String c r =>
      if bool_decide (is_Some (b64_val c)) then isBase64 r
      else bool_decide (s = "=") || bool_decide (s = "==")
  end.

Definition byte_of_N (n : N) : Byte.byte := default Byte.x00 (Byte.of_N (n mod 256)).

(** [buf.toString('base64')] *)
Fixpoint encode (l : list Byte.byte) : string :=
  match l with
  | [] => ""
  | [a] =>
      let n := Byte.to_N a in
      String (b64_char (n / 4)) (String (b64_char (n mod 4 * 16)) "==")
  | [a; b] =>
      let n := Byte.to_N a in
      let m := Byte.to_N b in
      String (b64_char (n / 4))
        (String (b64_char (n mod 4 * 16 + m / 16))
           (String (b64_char (m mod 16 * 4)) "="))
  | a :: b :: c :: r =>
      let n := Byte.to_N a in
      let m := Byte.to_N b in
      let k := Byte.to_N c in
      String (b64_char (n / 4))
        (String (b64_char (n mod 4 * 16 + m / 16))
           (String (b64_char (m mod 16 * 4 + k / 64))
              (String (b64_char (k mod 64)) (encode r))))
  end.

(** The six-bit values of the characters up to the padding. *)
Fixpoint sextets (s : string) : list N :=
  match s with
  | EmptyString => []
  | String c r =>
      match b64_val c with
      | Some v => v :: sextets r
      | None => []
      end
  end.

Fixpoint bytes_of (l : list N) : list Byte.byte :=
  match l with
  | a :: b :: c :: d :: r =>
      byte_of_N (a * 4 + b / 16) :: byte_of_N (b mod 16 * 16 + c / 4)
        :: byte_of_N (c mod 4 * 64 + d) :: bytes_of r
  | [a; b; c] => [byte_of_N (a * 4 + b / 16); byte_of_N (b mod 16 * 16 + c / 4)]
  | [a; b] => [byte_of_N (a * 4 + b / 16)]
  | _ => []
  end.

(** [Buffer.from(s, 'base64')] on the strings that [isBase64] lets through:
    a last group of four, three or two characters gives three, two or one
    byte, and a single left-over character gives none. *)
Definition decode (s : string) : list Byte.byte := bytes_of (sextets s).

End Base64.

(** ** The access gate *)

(** The string holds the character. *)
Fixpoint has_char (c : ascii) (s : string) : bool :=
  match s with
  | EmptyString => false
  | String x r => bool_decide (x = c) || has_char c r
  end.

(** A JavaScript string that may be [undefined]. *)
Definition falsy (v : option string) : bool :=
  match v with
  | None | Some EmptyString => true
  | Some _ => false
  end.

Inductive gate :=
  | Next                                    (* [next()] *)
  | Reject (code : Z) (error : string).     (* [res.status(code).json({error})] *)

(** [authHeader && authHeader.split(' ')[1]] *)
Definition bearerToken (authHeader : option string) : option string :=
  match authHeader with
  | None => None
  | Some EmptyString => Some EmptyString
  | Some h => split " " h !! 1%nat
  end.

(** [authenticateToken(req, res, next)], with [TOKEN] the value of
    [process.env.TOKEN] and [authHeader] that of
    [req.headers['authorization']]. *)
Definition authenticateToken (TOKEN authHeader : option string) : gate :=
  let token := bearerToken authHeader in
  if falsy token then Reject 401 "Access token required"
  else if bool_decide (token ≠ TOKEN) then Reject 403 "Invalid access token"
  else Next.

(** ** The upload route *)

(** Every character of the string passes the test. *)
Fixpoint all_chars (P : ascii → bool) (s : string) : bool :=
  match s with
  | EmptyString => true
  | String c r => P c && all_chars P r
  end.

Definition is_digit (c : ascii) : bool :=
  let k := N_of_ascii c in (48 <=? k)%N && (k <=? 57)%N.

Definition is_digit_or_dash (c : ascii) : bool :=
  is_digit c || bool_decide (c = "-"%char).

(** The variables of the environment that the upload route reads, beside
    those of [Env]. *)
Record UploadEnv := mkUploadEnv {
  core : Env;
  GITHUB_TOKEN : option string;
  SITE_PREFIX : option string;
  TOKEN : option string;
  env_PORT : option string
}.

(** The JSON body of a request: each field is a string when it is there. *)
Record UploadBody := mkUploadBody {
  file : option string;
  fileName : option string
}.

(** The request [uploadToGitHub] sends. *)
Record PutRequest := mkPut {
  put_url : string;
  put_token : string;           (* [Authorization: token ...] *)
  put_message : string;
  put_content : string;
  put_branch : option string    (* left out of the JSON when [undefined] *)
}.

(** What comes back: a 2xx answer with a JSON body, a 2xx answer whose body
    is not JSON, another status, or no answer at all. *)
Inductive put_answer :=
  | PutCreated
  | PutMalformed
  | PutRejected (code : Z) (text : string)
  | PutUnreachable.

Inductive api_response :=
  | JsonData (data : string)                   (* [res.json({data})] *)
  | JsonError (code : Z) (error : string).     (* [res.status(code).json({error})] *)

(** What [pngquant] does with a picture: it fails, it ends without writing
    its output, or it writes it. *)
Inductive pngquant_result :=
  | QuantFails
  | QuantNoOutput
  | QuantOutput (data : list Byte.byte).

Definition readFileSync (p : path) : JS (list Byte.byte) := λ w,
  match readFile w p with
  | Some d => (Return d, w)
  | None => (Throw (Error "ENOENT: no such file or directory, open"), w)
  end.

(** [fs.renameSync(src, dst)]: the file keeps its content and its time. *)
Definition renameSync (src dst : path) : JS unit := λ w,
  match fs w !! segs src with
  | Some n =>
      if can_unlink w src && can_write w dst
      then (Return (), set_fs (<[segs dst := n]> (delete (segs src) (fs w))) w)
      else (Throw (Error "rename failed"), w)
  | None => (Throw (Error "ENOENT: no such file or directory, rename"), w)
  end.

Section Upload.

Variable uenv : UploadEnv.

(** The value of [Math.round(Math.random() * 1E9)], the outcome of
    [pngquant] on a picture and the answer of GitHub to a request. *)
Variable rnd : Z.
Variable pngquant : list Byte.byte → pngquant_result.
Variable github : PutRequest → put_answer.

(** [process.env.PORT || 8889] *)
Definition PORT : string :=
  if falsy (env_PORT uenv) then "8889" else default "8889" (env_PORT uenv).

Definition tmpDir : path := join (dirname (core uenv)) "tmp".

(** [path.join(__dirname, 'tmp', name)] *)
Definition tmpPath (name : string) : path :=
  join (dirname (core uenv)) ("tmp/" ++ name)%string.

(** [execSync(`pngquant --quality=65-80 --output "${out}" "${inp}"`)]: the
    tool reads [inp] and does not replace an [out] that exists. *)
Definition execPngquant (out inp : path) : JS unit := λ w,
  match readFile w inp with
  | None => (Throw (Error "Command failed: pngquant"), w)
  | Some d =>
      match pngquant d with
      | QuantFails => (Throw (Error "Command failed: pngquant"), w)
      | QuantNoOutput => (Return (), w)
      | QuantOutput d' =>
          if can_write w out && bool_decide (fs w !! segs out = None)
          then (Return (), set_fs (<[segs out := RegFile (now w) d']> (fs w)) w)
          else (Throw (Error "Command failed: pngquant"), w)
      end
  end.

Definition uploadToGitHub (filePath : path) (filename : string) : JS string :=
  match GITHUB_TOKEN uenv, GITHUB_REPO (core uenv), SITE_PREFIX uenv with
  | Some token, Some repoSpec, Some prefix =>
      if falsy (Some token) || falsy (Some repoSpec) || falsy (Some prefix)
      then throw (Error "Missing GitHub environment variables")
      else
        let parts := split "/" repoSpec in
        buf ← readFileSync filePath;
        let fileContent := Base64.encode buf in
        let githubPath := filename in
        let githubUrl :=
          ("https://api.github.com/repos/" ++ part parts 0 ++ "/" ++ part parts 1
             ++ "/contents/" ++ githubPath)%string in
        match github (mkPut githubUrl token ("Upload " ++ filename)%string
                        fileContent (parts !! 2%nat)) with
        | PutCreated => mret (prefix ++ filename)%string
        | PutMalformed => throw (Error "invalid json response body")
        | PutRejected code text => throw (Error "GitHub upload failed")
        | PutUnreachable => throw (Error "request failed")
        end
  | _, _, _ => throw (Error "Missing GitHub environment variables")
  end.

(** [path.extname(req.body.fileName) || '.jpg'] *)
Definition uploadExt (name : string) : string :=
  if bool_decide (extname name = "") then ".jpg" else extname name.

(** [Date.now() + '-' + Math.round(Math.random() * 1E9) + ext] *)
Definition uploadName (t : Z) (name : string) : string :=
  (pretty t ++ "-" ++ pretty rnd ++ uploadExt name)%string.

(** The body of [app.post('/api/upload', authenticateToken, ...)]. *)
Definition upload (body : option UploadBody) : JS api_response :=
  match body with
  | None => mret (JsonError 400 "Missing file or fileName")
  | Some b =>
      if falsy (file b) || falsy (fileName b)
      then mret (JsonError 400 "Missing file or fileName")
      else
        let data := default "" (file b) in
        let name := default "" (fileName b) in
        try_catch
          (if negb (Base64.isBase64 data) return JS api_response
           then throw (Error "Invalid base64 data")
           else
             let buf := Base64.decode data in
             t ← Date_now;
             let ext := uploadExt name in
             let filename := uploadName t name in
             let filePath := tmpPath filename in
             writeFileSync filePath buf;;
             (if bool_decide (toLowerCase ext = ".png") then
                try_catch
                  (let compressedPath := tmpPath ("compressed-" ++ filename)%string in
                   execPngquant compressedPath filePath;;
                   ex ← existsSync compressedPath;
                   if (ex : bool) then renameSync compressedPath filePath
                   else mret ())
                  (λ compressError, mret ())
              else mret ());;
             st ← stat filePath;
             try_catch
               (githubUrl ← uploadToGitHub filePath filename;
                unlink filePath;;
                mret (JsonData githubUrl))
               (λ githubError,
                  mret (JsonData ("http://localhost:" ++ PORT ++ "/tmp/"
                                    ++ filename)%string)))
          (λ error, mret (JsonError 500 "Failed to process base64 upload"))
  end.

(** The route with its gate. *)
Definition apiUpload (authHeader : option string) (body : option UploadBody)
    : JS api_response :=
  match authenticateToken (TOKEN uenv) authHeader with
  | Next => upload body
  | Reject code error => mret (JsonError code error)
  end.

End Upload.

(** ** Pure views of the upload route *)

Section UploadViews.

Variable uenv : UploadEnv.
Variable pngquant : list Byte.byte → pngquant_result.

(** The bytes the temporary file holds once the compression step is over. *)
Definition stored_bytes (name : string) (buf : list Byte.byte) : list Byte.byte :=
  if bool_decide (toLowerCase (uploadExt name) = ".png") then
    match pngquant buf with
    | QuantOutput d => d
    | _ => buf
    end
  else buf.

(** The request for a file of the given content, when the environment has
    what it takes. *)
Definition put_request (filename : string) (content : list Byte.byte)
    : option PutRequest :=
  match GITHUB_TOKEN uenv, GITHUB_REPO (core uenv), SITE_PREFIX uenv with
  | Some token, Some repoSpec, Some prefix =>
      if falsy (Some token) || falsy (Some repoSpec) || falsy (Some prefix)
      then None
      else
        let parts := split "/" repoSpec in
        Some (mkPut ("https://api.github.com/repos/" ++ part parts 0 ++ "/"
                       ++ part parts 1 ++ "/contents/" ++ filename)%string
                    token ("Upload " ++ filename)%string
                    (Base64.encode content) (parts !! 2%nat))
  | _, _, _ => None
  end.

(** GitHub takes the file. *)
Definition put_accepted (github : PutRequest → put_answer) (filename : string)
    (content : list Byte.byte) : bool :=
  match put_request filename content with
  | Some req => match github req with PutCreated => true | _ => false end
  | None => false
  end.

Definition cdnUrl (filename : string) : string :=
  (default "" (SITE_PREFIX uenv) ++ filename)%string.

Definition localUrl (filename : string) : string :=
  ("http://localhost:" ++ PORT uenv ++ "/tmp/" ++ filename)%string.

Definition dir_at (w : World) (q : list string) : bool :=
  match fs w !! q with
  | Some (SubDir _ _) => true
  | _ => false
  end.

(** The [tmp] directory is there, the two names the upload uses are free in
    it, and no fault stands in the way of writing, examining and renaming
    them. *)
Definition tmp_ready (w : World) (filename : string) : Prop :=
  let p := tmpPath uenv filename in
  let pc := tmpPath uenv ("compressed-" ++ filename)%string in
  dir_at w (segs (tmpDir uenv)) = true
  ∧ fs w !! segs p = None ∧ fs w !! segs pc = None
  ∧ write_fails (faults w) p = false ∧ write_fails (faults w) pc = false
  ∧ stat_fails (faults w) p = false ∧ stat_fails (faults w) pc = false
  ∧ unlink_fails (faults w) pc = false.

(** The world while the temporary file is there. *)
Definition with_tmp_file (w : World) (filename : string) (d : list Byte.byte)
    : World :=
  set_fs (<[segs (tmpPath uenv filename) := RegFile (now w) d]> (fs w)) w.

End UploadViews.

(** ** Start-up *)

(** [requiredEnvVars.filter(v => !process.env[v])] *)
Definition missingEnvVars (uenv : UploadEnv) : list string :=
  (if falsy (GITHUB_TOKEN uenv) then ["GITHUB_TOKEN"] else [])
  ++ (if falsy (GITHUB_REPO (core uenv)) then ["GITHUB_REPO"] else [])
  ++ (if falsy (SITE_PREFIX uenv) then ["SITE_PREFIX"] else [])
  ++ (if falsy (TOKEN uenv) then ["TOKEN"] else []).

(** The start-up sweep; it returns what it logs: the stats before, the
    result of the sweep, and the stats after when something was deleted. *)
Definition startupCleanup (env : Env)
    : JS (option (CacheStats * CleanupResult * option CacheStats)) :=
  try_catch
    (stats ← getCacheStats env;
     cleanup ← cleanupExpiredCacheFiles env;
     if 0 <? deletedCount cleanup then
       newStats ← getCacheStats env;
       mret (Some (stats, cleanup, Some newStats))
     else mret (Some (stats, cleanup, None)))
    (λ error, mret None).

(** ** The test client, [test-upload.js] *)

(** A path given as a string, for the [fs] calls. *)
Definition resolve (s : string) : path :=
  mkPath (normalizeString (split "/" s)) (ends_with_slash s).

Record UploadRequest := mkRequest {
  authorization : option string;
  payload : option UploadBody
}.

(** The request of [testBase64Upload(imagePath)] for an absolute
    [imagePath]; [None] when the file is missing or cannot be read. *)
Definition clientRequest (TOKEN : option string) (imagePath : string)
    : JS (option UploadRequest) :=
  try_catch
    (ex ← existsSync (resolve imagePath);
     if negb ex then throw (Error "File not found")
     else
       buf ← readFileSync (resolve imagePath);
       let testImageData := Base64.encode buf in
       mret (Some (mkRequest
                     (Some ("Bearer " ++ default "undefined" TOKEN)%string)
                     (Some (mkUploadBody (Some testImageData)
                                         (Some (basename imagePath)))))))
    (λ error, mret None).

(** ** What a computation may change *)

(** The outcome of a computation from a world: [Qr] holds of a result and
    the world it leaves, [Qt] of an exception and the world it leaves. *)
Definition js_post {A} (m : JS A) (w : World)
    (Qr : A → World → Prop) (Qt : exn → World → Prop) : Prop :=
  match m w with
  | (Return a, w') => Qr a w'
  | (Throw e, w') => Qt e w'
  end.

(** From [w] to [w'] the clock, the faults, the remote store and the call
    log stay as they are, and so does every path that is not listed. *)
Definition changes_only (qs : list (list string)) (w w' : World) : Prop :=
  now w' = now w ∧ faults w' = faults w ∧ remote w' = remote w
  ∧ calls w' = calls w ∧ ∀ q, q ∉ qs → fs w' !! q = fs w !! q.

(** Whatever its outcome, the computation changes the listed paths only. *)
Definition touches {A} (qs : list (list string)) (m : JS A) : Prop :=
  ∀ w, changes_only qs w (m w).2.

(** ** A server with a [tmp] directory *)

Module UploadScenario.

Definition uenv0 : UploadEnv :=
  mkUploadEnv Scenario.env0 (Some "ghp_x") (Some "https://cdn.example/")
    (Some "s3cret") None.

(** The same server when [GITHUB_TOKEN] is gone from the environment. *)
Definition uenv_bare : UploadEnv :=
  mkUploadEnv Scenario.env0 None (Some "https://cdn.example/") (Some "s3cret") None.

Definition in_tmp (name : string) : path :=
  mkPath ["srv"; "upic"; "tmp"; name] false.

Definition files_up : gmap (list string) node :=
  <[ ["srv"; "upic"; "tmp"] := SubDir 0 4096 ]>
    (<[ ["home"; "me"; "shot.PNG"] := RegFile 0 Scenario.png ]> Scenario.files0).

Definition w_up : World :=
  mkWorld Scenario.t0 files_up Scenario.noFaults Scenario.remote0 [].

(** The temporary file of the upload cannot be removed. *)
Definition stuck : Faults :=
  mkFaults (λ _, false) (λ p, bool_decide (p = in_tmp "1717113600000-7.PNG"))
           (λ _, false) (λ _, false).

Definition w_stuck : World :=
  mkWorld Scenario.t0 files_up stuck Scenario.remote0 [].

(** A [pngquant] that keeps the first two bytes. *)
Definition quant2 (d : list Byte.byte) : pngquant_result := QuantOutput (take 2 d).

(** GitHub takes what comes with the right token. *)
Definition github_ok (req : PutRequest) : put_answer :=
  if bool_decide (put_token req = "ghp_x") then PutCreated
  else PutRejected 401 "Bad credentials".

Definition github_down (req : PutRequest) : put_answer := PutUnreachable.

(** The request for [shot.PNG] with the bytes of [Scenario.png], compressed. *)
Definition req_shot : PutRequest :=
  mkPut "https://api.github.com/repos/octo/images/contents/1717113600000-7.PNG"
        "ghp_x" "Upload 1717113600000-7.PNG" "iVA=" (Some "main").

End UploadScenario.

(** * Properties *)

(** ** Paths *)

Lemma split_no_slash (n : string) : has_slash n = false → split "/" n = [n].
Proof.
  induction n as [|c r IH]; simpl; [done|].
  unfold is_slash. intros H. apply orb_false_iff in H as [Hc Hr].
  rewrite Hc, (IH Hr). done.
Qed.

Lemma ends_with_slash_no_slash (n : string) :
  has_slash n = false → ends_with_slash n = false.
Proof.
  induction n as [|c r IH]; simpl; [done|].
  intros H. apply orb_false_iff in H as [Hc Hr].
  destruct r; [done|]. by apply IH.
Qed.

Lemma valid_name_plain (n : string) : valid_name n = true → plain n.
Proof.
  unfold valid_name, plain. rewrite !andb_true_iff, !bool_decide_eq_true. tauto.
Qed.

Lemma valid_name_no_slash (n : string) : valid_name n = true → has_slash n = false.
Proof.
  unfold valid_name. rewrite !andb_true_iff, negb_true_iff. tauto.
Qed.

Lemma normalizeStep_plain (res : list string) (seg : string) :
  plain seg → normalizeStep res seg = seg :: res.
Proof.
  intros (H1 & H2 & H3). unfold normalizeStep.
  rewrite !bool_decide_eq_false_2; done.
Qed.

Lemma normalizeStep_dotdot (res : list string) :
  normalizeStep res ".." = tail res.
Proof. done. Qed.

Lemma normalizeStep_keeps_plain (res : list string) (seg : string) :
  Forall plain res → Forall plain (normalizeStep res seg).
Proof.
  intros Hres. unfold normalizeStep.
  repeat case_bool_decide; try done.
  - destruct res; [done|]. by inversion Hres.
  - constructor; [|done]. by repeat split.
Qed.

Lemma fold_normalizeStep_plain (l acc : list string) :
  Forall plain acc → Forall plain (fold_left normalizeStep l acc).
Proof.
  revert acc. induction l as [|seg l IH]; simpl; [done|].
  intros acc Hacc. apply IH. by apply normalizeStep_keeps_plain.
Qed.

Lemma normalizeString_plain (l : list string) : Forall plain (normalizeString l).
Proof.
  unfold normalizeString. apply Forall_rev, fold_normalizeStep_plain. constructor.
Qed.

Lemma fold_normalizeStep_id (l acc : list string) :
  Forall plain l → fold_left normalizeStep l acc = (rev l ++ acc)%list.
Proof.
  revert acc. induction l as [|seg l IH]; simpl; [done|].
  intros acc Hl. inversion Hl; subst.
  rewrite normalizeStep_plain by done. rewrite IH by done.
  by rewrite <- app_assoc.
Qed.

Lemma normalizeString_id (l : list string) :
  Forall plain l → normalizeString l = l.
Proof.
  intros Hl. unfold normalizeString. rewrite fold_normalizeStep_id by done.
  by rewrite app_nil_r, rev_involutive.
Qed.

Lemma normalizeString_snoc (l : list string) (seg : string) :
  normalizeString (l ++ [seg]) = rev (normalizeStep (rev (normalizeString l)) seg).
Proof.
  unfold normalizeString. rewrite fold_left_app. simpl.
  by rewrite rev_involutive.
Qed.

Lemma join_plain_name (base : list string) (n : string) :
  Forall plain base → valid_name n = true →
  join base n = mkPath (base ++ [n]) false.
Proof.
  intros Hbase Hn. unfold join.
  rewrite (split_no_slash n), (ends_with_slash_no_slash n)
    by by apply valid_name_no_slash.
  f_equal. apply normalizeString_id, Forall_app. split; [done|].
  constructor; [by apply valid_name_plain | constructor].
Qed.

Lemma cacheDir_plain (env : Env) : Forall plain (segs (cacheDir env)).
Proof. apply normalizeString_plain. Qed.

Lemma cacheDir_no_trailing (env : Env) : trailing (cacheDir env) = false.
Proof. done. Qed.

Lemma getCacheFilePath_entry (env : Env) (n : string) :
  valid_name n = true →
  getCacheFilePath env n = mkPath (segs (cacheDir env) ++ [n]) false.
Proof. intros Hn. apply join_plain_name; [apply cacheDir_plain | done]. Qed.

(** A key that is a legal file name is stored inside the cache directory. *)
Lemma getCacheFilePath_name_inside (env : Env) (n : string) :
  valid_name n = true → inside (cacheDir env) (getCacheFilePath env n).
Proof.
  intros Hn. exists [n]. split; [done|].
  by rewrite getCacheFilePath_entry.
Qed.

(** ** Dates *)

(** In this part [lia] also decides division and remainder by constants. *)
Ltac Zify.zify_post_hook ::= Z.to_euclidean_division_equations.

Lemma month_start_increases (Y M : Z) :
  0 ≤ M < 12 →
  DayFromYearMonth (Y + (M - 3) / 12) ((M - 3) mod 12) < DayFromYearMonth Y M.
Proof.
  intros HM.
  assert (M = 0 ∨ M = 1 ∨ M = 2 ∨ M = 3 ∨ M = 4 ∨ M = 5 ∨ M = 6 ∨ M = 7
          ∨ M = 8 ∨ M = 9 ∨ M = 10 ∨ M = 11) as H by lia.
  unfold DayFromYearMonth.
  repeat (destruct H as [H|H]); subst M.
  all: match goal with
       | |- context [(?a - 3) / 12] =>
           let v := eval vm_compute in ((a - 3) / 12) in
           change ((a - 3) / 12) with v;
           let u := eval vm_compute in ((a - 3) mod 12) in
           change ((a - 3) mod 12) with u
       end.
  all: cbn [Z.ltb Z.compare Pos.compare Pos.compare_cont].
  all: repeat match goal with
         | |- context [(153 * ?a + 2) / 5] =>
             let v := eval vm_compute in ((153 * a + 2) / 5) in
             change ((153 * a + 2) / 5) with v
         end.
  all: lia.
Qed.

Lemma day_of_era_bounds (doe : Z) :
  0 ≤ doe < 146097 →
  let yoe := (doe - doe / 1460 + doe / 36524 - doe / 146096) / 365 in
  let doy := doe - (365 * yoe + yoe / 4 - yoe / 100) in
  0 ≤ yoe < 400 ∧ 0 ≤ doy < 366.
Proof. intros H. cbv zeta. lia. Qed.

(** The day number of a civil date is the day it was computed from. *)
Lemma DayFromYearMonth_CivilFromDay (d : Z) :
  DayFromYearMonth (CivilFromDay d).1.1 (CivilFromDay d).1.2 + (CivilFromDay d).2 - 1 = d
  ∧ 0 ≤ (CivilFromDay d).1.2 < 12.
Proof.
  unfold CivilFromDay. cbv zeta. cbn [fst snd].
  set (z := d + 719468).
  set (era := z / 146097).
  set (doe := z - era * 146097).
  assert (0 ≤ doe < 146097) as Hdoe by (subst doe era; lia).
  pose proof (day_of_era_bounds doe Hdoe) as Hb. cbv zeta in Hb.
  set (yoe := (doe - doe / 1460 + doe / 36524 - doe / 146096) / 365) in *.
  set (doy := doe - (365 * yoe + yoe / 4 - yoe / 100)) in *.
  destruct Hb as [Hyoe Hdoy].
  set (mp := (5 * doy + 2) / 153).
  assert (0 ≤ mp < 12) as Hmp by (subst mp; lia).
  unfold DayFromYearMonth.
  destruct (mp <? 10) eqn:Hlt.
  - apply Z.ltb_lt in Hlt.
    replace (mp + 2 <? 2) with false by (symmetry; apply Z.ltb_ge; lia).
    split; [|lia].
    replace ((yoe + era * 400 + 0) / 400) with era by lia.
    clearbody yoe era mp. lia.
  - apply Z.ltb_ge in Hlt.
    replace (mp - 10 <? 2) with true by (symmetry; apply Z.ltb_lt; lia).
    split; [|lia].
    replace ((yoe + era * 400 + 1 - 1) / 400) with era by lia.
    clearbody yoe era mp. lia.
Qed.

(** Setting a date back by three months yields an earlier instant. *)
Lemma setMonth_back_lt (tz t : Z) : setMonth tz t (getMonth tz t - 3) < t.
Proof.
  unfold setMonth, getMonth, UTC, MakeDate, MakeDay, LocalTime,
    YearFromTime, MonthFromTime, DateFromTime, TimeWithinDay, Day.
  set (lt := t + tz).
  destruct (DayFromYearMonth_CivilFromDay (lt / msPerDay)) as [Hd HM].
  pose proof (month_start_increases (CivilFromDay (lt / msPerDay)).1.1 _ HM) as Hlt.
  unfold msPerDay in *.
  set (a := DayFromYearMonth _ _) in *.
  set (b := DayFromYearMonth _ _) in *.
  clearbody a b. lia.
Qed.

Ltac Zify.zify_post_hook ::= idtac.

Lemma monthsAgo_lt (env : Env) (t : Z) : monthsAgo env t < t.
Proof. apply setMonth_back_lt. Qed.

(** Three months before 2024-05-31 is 2024-03-02, and so is three months
    before 2024-06-02: the cut-off date does not grow with the clock. *)
Example monthsAgo_end_of_may :
  monthsAgo Scenario.env0 1717113600000 = 1709337600000
  ∧ monthsAgo Scenario.env0 1717286400000 = 1709337600000
  ∧ monthsAgo Scenario.env0 1717200000000 = 1709251200000.
Proof. vm_compute. done. Qed.

Lemma ExpiryThreshold_pos (env : Env) (w : World) : 0 < ExpiryThreshold env w.
Proof. unfold ExpiryThreshold. pose proof (monthsAgo_lt env (now w)). lia. Qed.

(** ** Directory listings *)

Lemma child_Some (d p : list string) (n : string) :
  child d p = Some n ↔ p = (d ++ [n])%list ∧ valid_name n = true.
Proof.
  unfold child. split.
  - case_bool_decide as Hd; [|done].
    destruct (drop (length d) p) as [|x [|y r]] eqn:Hdrop; try done.
    destruct (valid_name x) eqn:Hx; [|done].
    intros [= <-]. split; [|done].
    by rewrite <- (take_drop (length d) p), Hd, Hdrop.
  - intros [-> Hn].
    rewrite take_app_length, bool_decide_eq_true_2 by done.
    rewrite drop_app_length. by rewrite Hn.
Qed.

Lemma elem_of_children (f : gmap (list string) node) (d : list string) (n : string) :
  n ∈ children f d ↔ valid_name n = true ∧ is_Some (f !! (d ++ [n])%list).
Proof.
  unfold children. rewrite list_elem_of_omap. split.
  - intros (p & Hp & Hc). apply child_Some in Hc as [-> Hn]. split; [done|].
    apply list_elem_of_fmap in Hp as ([p' x] & -> & Hin).
    apply elem_of_map_to_list in Hin. by exists x.
  - intros [Hn [x Hx]]. exists (d ++ [n])%list. split.
    + apply list_elem_of_fmap. exists (d ++ [n], x)%list. split; [done|].
      by apply elem_of_map_to_list.
    + apply child_Some. done.
Qed.

Lemma NoDup_omap_inj {A B} (f : A → option B) (l : list A) :
  (∀ x y z, f x = Some z → f y = Some z → x = y) →
  NoDup l → NoDup (omap f l).
Proof.
  intros Hinj. induction 1 as [|x l Hx Hl IH]; simpl; [constructor|].
  destruct (f x) as [z|] eqn:Hfx; [|done].
  constructor; [|done].
  rewrite list_elem_of_omap. intros (y & Hy & Hfy).
  by rewrite (Hinj x y z Hfx Hfy) in Hx.
Qed.

Lemma NoDup_children (f : gmap (list string) node) (d : list string) :
  NoDup (children f d).
Proof.
  apply NoDup_omap_inj; [|apply NoDup_fst_map_to_list].
  intros p q n Hp Hq. apply child_Some in Hp as [-> _].
  apply child_Some in Hq as [-> _]. done.
Qed.

(** ** What the cache functions compute *)

Arguments cacheDir : simpl never.
Arguments getCacheFilePath : simpl never.
Arguments monthsAgo : simpl never.
Arguments removed : simpl never.
Arguments delete_all : simpl never.
Arguments sum_sizes : simpl never.

Ltac js_run :=
  unfold mbind, JS_bind, mret, JS_ret, try_catch, throw; cbn.

Section Execution.

Variable env : Env.

Lemma isCacheValid_eq (p : path) (w : World) :
  isCacheValid env p w = (Return (is_valid env w p), w).
Proof.
  unfold isCacheValid, is_valid, existsSync, stat, Date_now. js_run.
  destruct (lookup_path w p) as [n|] eqn:Hp; cbn.
  - by rewrite Hp.
  - done.
Qed.

Lemma expiredLoop_eq (files : list string) (acc : list ExpiredFile) (w : World) :
  expiredLoop env (monthsAgo env (now w)) files acc w
  = (Return (acc ++ omap (expired_entry env w) files)%list, w).
Proof.
  revert acc. induction files as [|file rest IH]; intros acc.
  - cbn. js_run. by rewrite app_nil_r.
  - cbn. unfold expired_entry, getCacheFilePath, stat, Date_now.
    unfold mbind at 1, JS_bind at 1. js_run.
    destruct (lookup_path w (join (segs (cacheDir env)) file)) as [n|]; cbn.
    + destruct (mtime (stats_of n) <=? monthsAgo env (now w)); cbn.
      * rewrite IH. by rewrite <- app_assoc.
      * apply IH.
    + apply IH.
Qed.

Lemma getExpiredCacheFiles_eq (w : World) :
  getExpiredCacheFiles env w = (Return (expired_list env w), w).
Proof.
  unfold getExpiredCacheFiles, expired_list, listing, readdir, Date_now.
  unfold try_catch, mbind at 1, JS_bind at 1.
  destruct (readdir_fails (faults w) (cacheDir env)); [done|].
  unfold mbind, JS_bind. by rewrite expiredLoop_eq.
Qed.

Lemma statsLoop_eq (files : list string) (ts tf : Z) (w : World) :
  statsLoop env files ts tf w
  = (Return (ts + foldr Z.add 0 (stat_sizes env w files),
             tf + Z.of_nat (length (stat_sizes env w files))), w).
Proof.
  revert ts tf. induction files as [|file rest IH]; intros ts tf.
  - cbn. js_run. by rewrite !Z.add_0_r.
  - cbn. unfold stat_sizes, getCacheFilePath, stat.
    unfold mbind at 1, JS_bind at 1. js_run.
    destruct (lookup_path w (join (segs (cacheDir env)) file)) as [n|]; cbn.
    + rewrite IH. unfold stat_sizes, getCacheFilePath.
      do 3 f_equal; lia.
    + apply IH.
Qed.

Lemma getCacheStats_eq (w : World) :
  getCacheStats env w = (Return (cache_stats env w), w).
Proof.
  unfold getCacheStats, cache_stats, listing, readdir.
  unfold try_catch, mbind at 1, JS_bind at 1.
  destruct (readdir_fails (faults w) (cacheDir env)); [done|].
  unfold mbind, JS_bind. rewrite statsLoop_eq. cbn. done.
Qed.

End Execution.

(** ** The sweep *)

Lemma set_fs_id (w : World) : set_fs (fs w) w = w.
Proof. by destruct w. Qed.

Lemma removed_cons (w : World) (e : ExpiredFile) (l : list ExpiredFile) :
  removed w (e :: l)
  = if can_unlink w (ef_path e) then e :: removed w l else removed w l.
Proof.
  unfold removed. rewrite filter_cons.
  destruct (can_unlink w (ef_path e)); [by rewrite decide_True | by rewrite decide_False].
Qed.

Lemma sum_sizes_cons (e : ExpiredFile) (l : list ExpiredFile) :
  sum_sizes (e :: l) = ef_size e + sum_sizes l.
Proof. done. Qed.

Lemma delete_all_cons (e : ExpiredFile) (l : list ExpiredFile)
    (f : gmap (list string) node) :
  delete_all (e :: l) f = delete (segs (ef_path e)) (delete_all l f).
Proof. done. Qed.

Lemma lookup_delete_all (l : list ExpiredFile) (f : gmap (list string) node)
    (q : list string) :
  delete_all l f !! q
  = if bool_decide (q ∈ (segs ∘ ef_path) <$> l) then None else f !! q.
Proof.
  induction l as [|e l IH].
  - cbn. rewrite bool_decide_eq_false_2; [done|]. by intros H%elem_of_nil.
  - change (delete_all (e :: l) f) with (delete (segs (ef_path e)) (delete_all l f)).
    rewrite fmap_cons, lookup_delete.
    destruct (decide (segs (ef_path e) = q)) as [Hk|Hk].
    + rewrite bool_decide_eq_true_2; [done|]. subst q. apply list_elem_of_here.
    + rewrite IH.
      destruct (decide (q ∈ (segs ∘ ef_path) <$> l)) as [Hin|Hnin].
      * rewrite (bool_decide_eq_true_2 _ Hin).
        rewrite bool_decide_eq_true_2; [done|]. by apply list_elem_of_further.
      * rewrite (bool_decide_eq_false_2 _ Hnin).
        rewrite bool_decide_eq_false_2; [done|].
        intros [Heq|Hin]%elem_of_cons; [by apply Hk | done].
Qed.

Lemma delete_all_delete (k : list string) (l : list ExpiredFile)
    (f : gmap (list string) node) :
  delete_all l (delete k f) = delete k (delete_all l f).
Proof.
  induction l as [|e l IH]; [done|].
  by rewrite !delete_all_cons, IH, delete_delete.
Qed.

Lemma can_unlink_delete_ne (w : World) (k : list string) (p : path) :
  segs p ≠ k →
  can_unlink (set_fs (delete k (fs w)) w) p = can_unlink w p.
Proof.
  intros Hne. unfold can_unlink. cbn. by rewrite lookup_delete_ne.
Qed.

Lemma removed_ext (w1 w2 : World) (l : list ExpiredFile) :
  (∀ e, e ∈ l → can_unlink w1 (ef_path e) = can_unlink w2 (ef_path e)) →
  removed w1 l = removed w2 l.
Proof.
  induction l as [|e l IH]; intros Hext; [done|].
  rewrite !removed_cons. rewrite IH.
  2: { intros e' He'. apply Hext. by apply list_elem_of_further. }
  rewrite (Hext e) by apply list_elem_of_here. done.
Qed.

Section Sweep.

Variable env : Env.

Lemma cleanupLoop_eq (l : list ExpiredFile) (c f : Z) (w : World) :
  NoDup ((segs ∘ ef_path) <$> l) →
  cleanupLoop l c f w
  = (Return (c + Z.of_nat (length (removed w l)), f + sum_sizes (removed w l)),
     set_fs (delete_all (removed w l) (fs w)) w).
Proof.
  revert c f w. induction l as [|e l IH]; intros c f w Hnd.
  - unfold removed, delete_all, sum_sizes. cbn. js_run.
    rewrite set_fs_id. by rewrite !Z.add_0_r.
  - rewrite fmap_cons in Hnd. apply NoDup_cons in Hnd as [Hfresh Hnd].
    rewrite removed_cons.
    cbn [cleanupLoop]. unfold unlink. js_run.
    destruct (can_unlink w (ef_path e)) eqn:He; cbn.
    + rewrite IH by done.
      rewrite (removed_ext (set_fs (delete (segs (ef_path e)) (fs w)) w) w).
      2: { intros e' He'. apply can_unlink_delete_ne. intros Heq.
           apply Hfresh. change ((segs ∘ ef_path) e) with (segs (ef_path e)).
           rewrite <- Heq. by apply (list_elem_of_fmap_2 (segs ∘ ef_path)). }
      rewrite sum_sizes_cons, Nat2Z.inj_succ, delete_all_cons.
      unfold set_fs. cbn. rewrite delete_all_delete.
      do 3 f_equal; lia.
    + by apply IH.
Qed.

Lemma expired_list_log (c : call) (w : World) :
  expired_list env (log_call c w) = expired_list env w.
Proof. done. Qed.

Lemma expired_entry_Some (w : World) (file : string) (e : ExpiredFile) :
  expired_entry env w file = Some e →
  ef_name e = file ∧ ef_path e = getCacheFilePath env file ∧
  ∃ n, lookup_path w (getCacheFilePath env file) = Some n ∧
       mtime (stats_of n) ≤ monthsAgo env (now w) ∧
       ef_size e = size (stats_of n).
Proof.
  unfold expired_entry.
  destruct (lookup_path w (getCacheFilePath env file)) as [n|]; [|done].
  destruct (mtime (stats_of n) <=? monthsAgo env (now w)) eqn:Hle; [|done].
  intros [= <-]. cbn. repeat split; try done.
  exists n. repeat split; try done. lia.
Qed.

Lemma elem_of_expired_list (w : World) (e : ExpiredFile) :
  e ∈ expired_list env w ↔
  readdir_fails (faults w) (cacheDir env) = false ∧
  ef_name e ∈ listing env w ∧
  expired_entry env w (ef_name e) = Some e.
Proof.
  unfold expired_list.
  destruct (readdir_fails (faults w) (cacheDir env)).
  - split; [by intros H%elem_of_nil | by intros [? _]].
  - rewrite list_elem_of_omap. split.
    + intros (file & Hin & He).
      destruct (expired_entry_Some _ _ _ He) as (<- & _). done.
    + intros (_ & Hin & He). eauto.
Qed.

Lemma expired_list_path (w : World) (e : ExpiredFile) :
  e ∈ expired_list env w →
  ef_path e = mkPath (segs (cacheDir env) ++ [ef_name e]) false.
Proof.
  intros (_ & Hin & He)%elem_of_expired_list.
  apply expired_entry_Some in He as (_ & -> & _).
  apply getCacheFilePath_entry.
  by apply elem_of_children in Hin as [Hn _].
Qed.

Lemma expired_list_inj (w : World) (x y : ExpiredFile) :
  x ∈ expired_list env w → y ∈ expired_list env w →
  segs (ef_path x) = segs (ef_path y) → x = y.
Proof.
  intros Hx Hy Heq.
  rewrite (expired_list_path w x Hx), (expired_list_path w y Hy) in Heq.
  cbn in Heq. apply app_inj_1 in Heq as [_ [= Hname]]; [|done].
  apply elem_of_expired_list in Hx as (_ & _ & Hx).
  apply elem_of_expired_list in Hy as (_ & _ & Hy).
  rewrite Hname in Hx. congruence.
Qed.

Lemma NoDup_expired_list (w : World) :
  NoDup ((segs ∘ ef_path) <$> expired_list env w).
Proof.
  apply NoDup_fmap_2_strong.
  - intros x y Hx Hy Heq. by apply (expired_list_inj w).
  - unfold expired_list.
    destruct (readdir_fails (faults w) (cacheDir env)); [constructor|].
    apply NoDup_omap_inj; [|apply NoDup_children].
    intros x y z Hx Hy.
    apply expired_entry_Some in Hx as (Hx & _).
    apply expired_entry_Some in Hy as (Hy & _). congruence.
Qed.

Lemma elem_of_removed (w : World) (l : list ExpiredFile) (e : ExpiredFile) :
  e ∈ removed w l ↔ can_unlink w (ef_path e) = true ∧ e ∈ l.
Proof. unfold removed. by rewrite list_elem_of_filter. Qed.

(** What a sweep leaves at the location of an entry it was given. *)
Lemma lookup_after_sweep (w : World) (e : ExpiredFile) :
  e ∈ expired_list env w →
  delete_all (removed w (expired_list env w)) (fs w) !! segs (ef_path e)
  = if can_unlink w (ef_path e) then None else fs w !! segs (ef_path e).
Proof.
  intros He. rewrite lookup_delete_all.
  destruct (can_unlink w (ef_path e)) eqn:Hu.
  - rewrite bool_decide_eq_true_2; [done|].
    apply (list_elem_of_fmap_2 (segs ∘ ef_path)). by apply elem_of_removed.
  - rewrite bool_decide_eq_false_2; [done|].
    intros (e' & Heq & [Hu' He']%elem_of_removed)%list_elem_of_fmap.
    cbn in Heq. rewrite (expired_list_inj w e e' He He' Heq) in Hu. congruence.
Qed.

Lemma cleanupExpiredCacheFiles_eq (w : World) :
  let l := removed w (expired_list env w) in
  cleanupExpiredCacheFiles env w
  = (Return (mkCleanup (Z.of_nat (length l)) (sum_sizes l)),
     set_fs (delete_all l (fs w)) (log_call CallCleanup w)).
Proof.
  intros l. unfold cleanupExpiredCacheFiles, invoked.
  unfold mbind at 1, JS_bind at 1. unfold try_catch.
  unfold mbind at 1, JS_bind at 1.
  rewrite getExpiredCacheFiles_eq, expired_list_log.
  case_bool_decide as Hlen.
  - subst l. apply nil_length_inv in Hlen. rewrite Hlen. reflexivity.
  - unfold mbind, JS_bind.
    rewrite cleanupLoop_eq by (rewrite <- (expired_list_log CallCleanup); apply NoDup_expired_list).
    cbn. rewrite !Z.add_0_l.
    rewrite (removed_ext (log_call CallCleanup w) w) by done.
    done.
Qed.

End Sweep.

(** ** The proxy handler *)

Arguments overBudget : simpl never.
Arguments contentTypeFor : simpl never.
Arguments rawUrl : simpl never.
Arguments cache_stats : simpl never.

Section Handler.

Variable env : Env.

Lemma fetchFromGitHubRaw_eq (filename : string) (w : World) :
  match fetch_result env w filename with
  | Some data =>
      fetchFromGitHubRaw env filename w = (Return data, after_fetch env filename w)
  | None =>
      ∃ e, fetchFromGitHubRaw env filename w = (Throw e, after_fetch env filename w)
  end.
Proof.
  unfold fetch_result, fetchFromGitHubRaw, after_fetch, fetch_log, fetch, invoked.
  destruct (GITHUB_REPO env) as [[|c r]|]; js_run; eauto.
  destruct (remote w (rawUrl (String c r) filename)) as [resp|]; cbn; eauto.
  destruct (ok resp); cbn; eauto.
Qed.

Lemma proxy_hit (filename : string) (w : World) :
  is_valid env w (getCacheFilePath env filename) = true →
  proxy env filename w = (Return (SendFile (getCacheFilePath env filename)), w).
Proof.
  intros Hv. unfold proxy, try_catch.
  unfold mbind at 1, JS_bind at 1. rewrite isCacheValid_eq, Hv.
  unfold stat. js_run.
  by destruct (lookup_path w (getCacheFilePath env filename)).
Qed.

Lemma proxy_miss (filename : string) (w : World) :
  is_valid env w (getCacheFilePath env filename) = false →
  proxy env filename w =
  match fetch_result env w filename with
  | None => (Return not_found, after_fetch env filename w)
  | Some data =>
      if can_write (after_fetch env filename w) (getCacheFilePath env filename)
      then (Return (Send (contentTypeFor filename) data),
            after_maybe_sweep env (after_write env filename data w))
      else (Return not_found, after_fetch env filename w)
  end.
Proof.
  intros Hv. unfold proxy, try_catch.
  unfold mbind at 1, JS_bind at 1. rewrite isCacheValid_eq, Hv.
  unfold mbind at 1, JS_bind at 1.
  pose proof (fetchFromGitHubRaw_eq filename w) as Hf.
  destruct (fetch_result env w filename) as [data|].
  - rewrite Hf. unfold writeFileSync.
    unfold mbind at 1, JS_bind at 1.
    destruct (can_write (after_fetch env filename w) (getCacheFilePath env filename));
      [|done].
    unfold mbind at 1, JS_bind at 1. rewrite getCacheStats_eq.
    unfold after_maybe_sweep.
    match goal with
    | |- context [cache_stats env ?x] =>
        change x with (after_write env filename data w)
    end.
    destruct (overBudget env (cache_stats env (after_write env filename data w))).
    + unfold mbind, JS_bind, mret, JS_ret.
      by rewrite cleanupExpiredCacheFiles_eq.
    + done.
  - destruct Hf as [e ->]. done.
Qed.

Lemma calls_after_cleanup (w : World) :
  calls (cleanupExpiredCacheFiles env w).2 = CallCleanup :: calls w.
Proof. by rewrite cleanupExpiredCacheFiles_eq. Qed.



End Handler.

(** * The claims *)

(** ** Cache store: the location of a key *)

Lemma lookup_path_fs (w : World) (p : path) (n : node) :
  lookup_path w p = Some n → fs w !! segs p = Some n.
Proof.
  unfold lookup_path. destruct (stat_fails (faults w) p); [done|].
  destruct (fs w !! segs p) as [n'|]; [|done].
  by destruct (trailing p && negb (is_dir n')).
Qed.

(** C1 (fails on the code): the key [".."] is mapped to the parent of the
    cache directory whatever the installation directory is, so the location
    of a key does not always lie inside the cache directory: the key is
    joined to the directory as it comes. *)
Theorem getCacheFilePath_dotdot_escapes (env : Env) :
  ¬ inside (cacheDir env) (getCacheFilePath env "..").
Proof.
  intros (rest & Hrest & Heq).
  assert (length (segs (getCacheFilePath env "..")) ≤ length (segs (cacheDir env)))%nat
    as Hlen.
  { unfold getCacheFilePath, join. cbn [segs].
    change (split "/" "..") with [".."].
    rewrite normalizeString_snoc, normalizeStep_dotdot.
    rewrite (normalizeString_id _ (cacheDir_plain env)).
    rewrite length_rev, <- (length_rev (segs (cacheDir env))).
    destruct (rev (segs (cacheDir env))); cbn; lia. }
  rewrite Heq, length_app in Hlen.
  destruct rest; [done|]. cbn in Hlen. lia.
Qed.

Example traversal_key_location :
  getCacheFilePath Scenario.env0 "../../../etc/passwd" = mkPath ["etc"; "passwd"] false.
Proof. vm_compute. reflexivity. Qed.

(** A request for the key ["../index.js"] replaces the server's own source
    file by what the remote store answers. *)
Example traversal_key_overwrites_source :
  fs (proxy Scenario.env0 "../index.js" Scenario.w_open).2 !! ["srv"; "upic"; "index.js"]
  = Some (RegFile Scenario.t0 Scenario.png).
Proof. vm_compute. reflexivity. Qed.

(** ** Expiry policy *)




(** C8: when the cache directory cannot be listed, the stats are the empty
    aggregate and the enumeration of expired files is empty; neither call
    throws. *)
Theorem unreadable_directory_degrades (env : Env) (w : World) :
  readdir_fails (faults w) (cacheDir env) = true →
  getCacheStats env w = (Return (mkCacheStats 0 0 0), w)
  ∧ getExpiredCacheFiles env w = (Return [], w).
Proof.
  intros Hdir. rewrite getCacheStats_eq, getExpiredCacheFiles_eq.
  unfold cache_stats, expired_list. by rewrite Hdir.
Qed.

Lemma unreadable_directory_degrades_witness :
  getCacheStats Scenario.env0 Scenario.w_unreadable
    = (Return (mkCacheStats 0 0 0), Scenario.w_unreadable)
  ∧ getExpiredCacheFiles Scenario.env0 Scenario.w_unreadable
    = (Return [], Scenario.w_unreadable).
Proof. apply unreadable_directory_degrades. reflexivity. Defined.

(** The boundary is pinned: [old.png] was written exactly three months
    before the clock of the scenario and is invalid; [new.png], one
    millisecond younger, is valid. *)
Example age_equal_to_threshold_is_invalid :
  ageOf Scenario.w0 (RegFile Scenario.cutoff0 Scenario.old_png)
    = ExpiryThreshold Scenario.env0 Scenario.w0
  ∧ (isCacheValid Scenario.env0 (Scenario.in_cache "old.png") Scenario.w0).1
    = Return false
  ∧ (isCacheValid Scenario.env0 (Scenario.in_cache "new.png") Scenario.w0).1
    = Return true
  ∧ ef_name <$> expired_list Scenario.env0 Scenario.w0
    = ["broken.png"; "old.png"; "locked.png"; "sub"].
Proof. vm_compute. done. Qed.

(** ** The proxy route *)

Lemma count_fetch_after_fetch (env : Env) (filename : string) (w : World) :
  count_fetch (calls (after_fetch env filename w)) = S (count_fetch (calls w)).
Proof.
  unfold after_fetch, fetch_log, count_fetch. cbn.
  by destruct (GITHUB_REPO env) as [[|c r]|].
Qed.



Lemma can_write_after_fetch (env : Env) (filename : string) (w : World) (p : path) :
  can_write (after_fetch env filename w) p = can_write w p.
Proof. done. Qed.

Lemma isCacheValid_false (env : Env) (p : path) (w : World) :
  isCacheValid env p w = (Return false, w) → is_valid env w p = false.
Proof. rewrite isCacheValid_eq. by intros [= ->]. Qed.



(** C9: when the cached file of a key is stale and the remote fetch fails,
    the answer is status 404 with a body [{error}], the file system is left
    as it was (the stale file is still there with its content), and the
    stale content is not what is sent. *)
Theorem stale_entry_survives_failed_fetch (env : Env) (w : World)
    (filename : string) (m : Z) (data : list Byte.byte) :
  fs w !! segs (getCacheFilePath env filename) = Some (RegFile m data) →
  ExpiryThreshold env w ≤ ageOf w (RegFile m data) →
  fetch_result env w filename = None →
  ∃ w', proxy env filename w
          = (Return (StatusJson 404 "File not found or fetch failed"), w')
        ∧ fs w' = fs w
        ∧ fs w' !! segs (getCacheFilePath env filename) = Some (RegFile m data).
Proof.
  intros Hfs Hstale Hfetch. exists (after_fetch env filename w).
  split; [|by split].
  rewrite proxy_miss, Hfetch; [done|].
  unfold is_valid.
  destruct (lookup_path w (getCacheFilePath env filename)) as [n|] eqn:Hp; [|done].
  apply lookup_path_fs in Hp. rewrite Hfs in Hp. injection Hp as <-.
  apply Z.ltb_ge. unfold ExpiryThreshold, ageOf in Hstale. cbn in *. lia.
Qed.

Lemma stale_entry_survives_failed_fetch_witness :
  ∃ w', proxy Scenario.env0 "old.png" Scenario.w0
          = (Return (StatusJson 404 "File not found or fetch failed"), w')
        ∧ fs w' = fs Scenario.w0
        ∧ fs w' !! segs (getCacheFilePath Scenario.env0 "old.png")
          = Some (RegFile Scenario.cutoff0 Scenario.old_png).
Proof.
  apply (stale_entry_survives_failed_fetch Scenario.env0 Scenario.w0 "old.png").
  - vm_compute. reflexivity.
  - vm_compute. discriminate.
  - vm_compute. reflexivity.
Defined.

(** C10: on a cache miss, when the remote fetch succeeds and the write of the
    fetched blob into the cache fails, the answer is the same 404 response:
    the blob is not sent, and the file system is left as it was. *)
Theorem failed_cache_write_fails_request (env : Env) (w : World)
    (filename : string) (data : list Byte.byte) :
  isCacheValid env (getCacheFilePath env filename) w = (Return false, w) →
  fetch_result env w filename = Some data →
  can_write w (getCacheFilePath env filename) = false →
  ∃ w', proxy env filename w
          = (Return (StatusJson 404 "File not found or fetch failed"), w')
        ∧ fs w' = fs w.
Proof.
  intros Hmiss%isCacheValid_false Hfetch Hwrite.
  exists (after_fetch env filename w). split; [|done].
  by rewrite proxy_miss, Hfetch, can_write_after_fetch, Hwrite.
Qed.

Lemma failed_cache_write_fails_request_witness :
  ∃ w', proxy Scenario.env0 "a.png" Scenario.w_readonly
          = (Return (StatusJson 404 "File not found or fetch failed"), w')
        ∧ fs w' = fs Scenario.w_readonly.
Proof.
  apply (failed_cache_write_fails_request Scenario.env0 Scenario.w_readonly "a.png"
           Scenario.png).
  - vm_compute. reflexivity.
  - vm_compute. reflexivity.
  - vm_compute. reflexivity.
Defined.

(** ** Enumeration and sweep *)

(** C7: an entry that cannot be examined is left out of the enumeration and
    every other expired entry of the directory is still yielded; a sweep
    always returns, removes every enumerated entry whose deletion succeeds,
    leaves the others in place, and reports the count and the bytes of the
    deletions that succeeded. *)
Theorem batch_skips_failed_entries (env : Env) (w : World) :
  (∃ l, getExpiredCacheFiles env w = (Return l, w)
        ∧ ∀ file, file ∈ ef_name <$> l ↔
            readdir_fails (faults w) (cacheDir env) = false ∧
            file ∈ listing env w ∧
            ∃ n, lookup_path w (getCacheFilePath env file) = Some n ∧
                 ExpiryThreshold env w ≤ ageOf w n)
  ∧ (∃ r w', cleanupExpiredCacheFiles env w = (Return r, w')
        ∧ deletedCount r = Z.of_nat (length (removed w (expired_list env w)))
        ∧ freedSpace r = sum_sizes (removed w (expired_list env w))
        ∧ ∀ e, e ∈ expired_list env w →
            fs w' !! segs (ef_path e)
            = if can_unlink w (ef_path e) then None else fs w !! segs (ef_path e)).
Proof.
  split.
  - exists (expired_list env w). split; [apply getExpiredCacheFiles_eq|].
    intros file. rewrite list_elem_of_fmap. unfold ExpiryThreshold, ageOf. split.
    + intros (e & -> & He). apply elem_of_expired_list in He as (Hdir & Hl & He).
      repeat split; try done.
      apply expired_entry_Some in He as (_ & _ & n & Hp & Hle & _).
      exists n. split; [done | lia].
    + intros (Hdir & Hl & n & Hp & Hle).
      exists (mkExpired file (getCacheFilePath env file) (size (stats_of n)) (ageOf w n)).
      split; [done|]. apply elem_of_expired_list. cbn. repeat split; try done.
      unfold expired_entry. rewrite Hp.
      destruct (mtime (stats_of n) <=? monthsAgo env (now w)) eqn:Hc; [done|].
      apply Z.leb_gt in Hc. lia.
  - eexists _, _. split; [apply cleanupExpiredCacheFiles_eq|]. cbn.
    repeat split. intros e He. by apply lookup_after_sweep.
Qed.

(** In the scenario with faults, [broken.png] cannot be examined and is
    skipped by the enumeration; [locked.png] and the directory [sub] cannot
    be removed: the sweep removes [old.png] alone and reports its three
    bytes. *)
Example sweep_with_faults :
  ef_name <$> expired_list Scenario.env0 Scenario.w_faulty
    = ["old.png"; "locked.png"; "sub"]
  ∧ (cleanupExpiredCacheFiles Scenario.env0 Scenario.w_faulty).1
    = Return (mkCleanup 1 3)
  ∧ (λ name, fs (cleanupExpiredCacheFiles Scenario.env0 Scenario.w_faulty).2
               !! ["srv"; "upic"; "cache"; name])
      <$> ["old.png"; "locked.png"; "sub"; "broken.png"]
    = [ None; Some (RegFile 0 Scenario.png); Some (SubDir 0 4096);
        Some (RegFile 0 Scenario.png) ].
Proof. vm_compute. done. Qed.

Lemma removed_nil (w : World) (l : list ExpiredFile) :
  (∀ e, e ∈ l → can_unlink w (ef_path e) = false) → removed w l = [].
Proof.
  induction l as [|e l IH]; intros Hl; [done|].
  rewrite removed_cons, (Hl e) by apply list_elem_of_here.
  apply IH. intros e' He'. apply Hl. by apply list_elem_of_further.
Qed.

Lemma lookup_path_ext (w w' : World) (p : path) :
  faults w = faults w' → fs w !! segs p = fs w' !! segs p →
  lookup_path w p = lookup_path w' p.
Proof. intros Hf Hfs. unfold lookup_path. by rewrite Hf, Hfs. Qed.

Lemma can_unlink_ext (w w' : World) (p : path) :
  faults w = faults w' → fs w !! segs p = fs w' !! segs p →
  can_unlink w p = can_unlink w' p.
Proof. intros Hf Hfs. unfold can_unlink. by rewrite Hf, Hfs. Qed.

Lemma fs_after_cleanup (env : Env) (w : World) :
  fs (cleanupExpiredCacheFiles env w).2
  = delete_all (removed w (expired_list env w)) (fs w).
Proof. by rewrite cleanupExpiredCacheFiles_eq. Qed.

Lemma faults_after_cleanup (env : Env) (w : World) :
  faults (cleanupExpiredCacheFiles env w).2 = faults w.
Proof. by rewrite cleanupExpiredCacheFiles_eq. Qed.

Lemma now_after_cleanup (env : Env) (w : World) :
  now (cleanupExpiredCacheFiles env w).2 = now w.
Proof. by rewrite cleanupExpiredCacheFiles_eq. Qed.

(** What is still there after a sweep was there before, and the sweep could
    not remove it if it was expired. *)
Lemma survivor_of_sweep (env : Env) (w : World) (file : string) (n : node) :
  readdir_fails (faults w) (cacheDir env) = false →
  valid_name file = true →
  lookup_path (cleanupExpiredCacheFiles env w).2 (getCacheFilePath env file) = Some n →
  mtime (stats_of n) ≤ monthsAgo env (now w) →
  can_unlink w (getCacheFilePath env file) = false.
Proof.
  intros Hdir Hname Hp Hle.
  set (p := getCacheFilePath env file) in *.
  assert (fs w !! segs p = Some n
          ∧ segs p ∉ (segs ∘ ef_path) <$> removed w (expired_list env w)) as [Hfs Hnot].
  { apply lookup_path_fs in Hp. rewrite fs_after_cleanup, lookup_delete_all in Hp.
    case_bool_decide; [done|]. done. }
  assert (lookup_path w p = Some n) as Hpw.
  { rewrite <- Hp. apply lookup_path_ext.
    - by rewrite faults_after_cleanup.
    - rewrite fs_after_cleanup, lookup_delete_all.
      by rewrite bool_decide_eq_false_2. }
  set (e0 := mkExpired file p (size (stats_of n)) (ageOf w n)).
  assert (e0 ∈ expired_list env w) as He0.
  { apply elem_of_expired_list. cbn. repeat split; [done| |].
    - apply elem_of_children. split; [done|].
      subst p. rewrite getCacheFilePath_entry in Hfs by done. cbn in Hfs. eauto.
    - unfold expired_entry. fold p. rewrite Hpw.
      by rewrite (proj2 (Z.leb_le _ _) Hle). }
  destruct (can_unlink w p) eqn:Hu; [|done].
  exfalso. apply Hnot.
  apply (list_elem_of_fmap_2 (segs ∘ ef_path) _ e0).
  by apply elem_of_removed.
Qed.

(** C5: a sweep that directly follows a sweep, on the file system the first
    one left and at an instant at which no entry has newly expired, deletes
    nothing and reports [{deletedCount: 0, freedSpace: 0}]. *)
Theorem second_sweep_deletes_nothing (env : Env) (w : World) (t2 : Z) :
  (∀ q n, fs w !! q = Some n →
          ageOf w n < ExpiryThreshold env w →
          ageOf (set_now t2 w) n < ExpiryThreshold env (set_now t2 w)) →
  cleanupExpiredCacheFiles env (set_now t2 (cleanupExpiredCacheFiles env w).2)
  = (Return (mkCleanup 0 0),
     log_call CallCleanup (set_now t2 (cleanupExpiredCacheFiles env w).2)).
Proof.
  intros Hclock.
  set (w1 := (cleanupExpiredCacheFiles env w).2).
  rewrite (cleanupExpiredCacheFiles_eq env (set_now t2 w1)).
  rewrite removed_nil; [done|].
  intros e (Hdir & Hl & He)%elem_of_expired_list.
  apply expired_entry_Some in He as (_ & Hpath & n & Hp & Hle & _).
  apply elem_of_children in Hl as [Hname _].
  cbn in Hdir, Hle. rewrite Hpath.
  assert (lookup_path w1 (getCacheFilePath env (ef_name e)) = Some n) as Hp1.
  { rewrite <- Hp. by apply lookup_path_ext. }
  assert (fs w !! segs (getCacheFilePath env (ef_name e)) = Some n) as Hfs.
  { apply lookup_path_fs in Hp1. subst w1.
    rewrite fs_after_cleanup, lookup_delete_all in Hp1.
    by case_bool_decide. }
  assert (mtime (stats_of n) ≤ monthsAgo env (now w)) as Hle1.
  { destruct (Z.le_gt_cases (mtime (stats_of n)) (monthsAgo env (now w)))
      as [?|Hgt]; [done|].
    specialize (Hclock _ _ Hfs). unfold ageOf, ExpiryThreshold in Hclock.
    cbn in Hclock. lia. }
  subst w1. rewrite faults_after_cleanup in Hdir.
  pose proof (survivor_of_sweep env w (ef_name e) n Hdir Hname Hp1 Hle1) as Hu.
  rewrite <- Hu. apply can_unlink_ext.
  - cbn. by rewrite faults_after_cleanup.
  - cbn. apply lookup_path_fs in Hp1. by rewrite Hp1, Hfs.
Qed.

Lemma second_sweep_deletes_nothing_witness :
  cleanupExpiredCacheFiles Scenario.env0
    (set_now Scenario.t0 (cleanupExpiredCacheFiles Scenario.env0 Scenario.w_faulty).2)
  = (Return (mkCleanup 0 0),
     log_call CallCleanup
       (set_now Scenario.t0 (cleanupExpiredCacheFiles Scenario.env0 Scenario.w_faulty).2)).
Proof.
  apply (second_sweep_deletes_nothing Scenario.env0 Scenario.w_faulty Scenario.t0).
  intros q n _ Hvalid. exact Hvalid.
Defined.

(** The first sweep of that scenario did delete: the second one finds
    [locked.png] and [sub] expired again, fails on both, and reports zero. *)
Example sweep_then_sweep :
  (cleanupExpiredCacheFiles Scenario.env0 Scenario.w_faulty).1 = Return (mkCleanup 1 3)
  ∧ ef_name <$> expired_list Scenario.env0
                  (cleanupExpiredCacheFiles Scenario.env0 Scenario.w_faulty).2
    = ["locked.png"; "sub"]
  ∧ (cleanupExpiredCacheFiles Scenario.env0
       (cleanupExpiredCacheFiles Scenario.env0 Scenario.w_faulty).2).1
    = Return (mkCleanup 0 0).
Proof. vm_compute. done. Qed.

(** ** The miss path of the proxy route *)

(** A sweep leaves every valid entry where it is. *)
Lemma sweep_keeps_valid (env : Env) (w : World) (q : list string) (n : node) :
  fs w !! q = Some n →
  monthsAgo env (now w) < mtime (stats_of n) →
  fs (cleanupExpiredCacheFiles env w).2 !! q = Some n.
Proof.
  intros Hq Hvalid. rewrite fs_after_cleanup, lookup_delete_all.
  rewrite bool_decide_eq_false_2; [done|].
  intros (e & Heq & [_ He]%elem_of_removed)%list_elem_of_fmap.
  apply elem_of_expired_list in He as (_ & _ & He).
  apply expired_entry_Some in He as (_ & Hpath & n' & Hp & Hle & _).
  apply lookup_path_fs in Hp. rewrite <- Hpath in Hp. cbn in Heq.
  rewrite <- Heq, Hq in Hp. injection Hp as <-. lia.
Qed.

Lemma count_fetch_after_maybe_sweep (env : Env) (w : World) :
  count_fetch (calls (after_maybe_sweep env w)) = count_fetch (calls w).
Proof.
  unfold after_maybe_sweep. destruct (overBudget env (cache_stats env w)); [|done].
  by rewrite calls_after_cleanup.
Qed.

Lemma faults_after_maybe_sweep (env : Env) (w : World) :
  faults (after_maybe_sweep env w) = faults w.
Proof.
  unfold after_maybe_sweep. destruct (overBudget env (cache_stats env w)); [|done].
  apply faults_after_cleanup.
Qed.

Lemma maybe_sweep_keeps_valid (env : Env) (w : World) (q : list string) (n : node) :
  fs w !! q = Some n →
  monthsAgo env (now w) < mtime (stats_of n) →
  fs (after_maybe_sweep env w) !! q = Some n.
Proof.
  intros Hq Hvalid. unfold after_maybe_sweep.
  destruct (overBudget env (cache_stats env w)); [|done].
  by apply sweep_keeps_valid.
Qed.

Lemma can_write_no_trailing (w : World) (p : path) :
  can_write w p = true → trailing p = false.
Proof.
  unfold can_write. rewrite !andb_true_iff, !negb_true_iff. tauto.
Qed.

(** C4: a request for a key that has no cached file calls the remote fetch
    exactly once; when the fetch and the write succeed, the fetched blob is
    sent, it is stored under the key, and a request for the same key that
    follows before the entry expires is answered from the cache, with no
    further call. *)
Theorem cache_miss_fetches_once_then_hits (env : Env) (w : World)
    (filename : string) :
  fs w !! segs (getCacheFilePath env filename) = None →
  (∃ r w', proxy env filename w = (Return r, w')
           ∧ count_fetch (calls w') = S (count_fetch (calls w)))
  ∧ ∀ (data : list Byte.byte) (t2 : Z),
      fetch_result env w filename = Some data →
      can_write w (getCacheFilePath env filename) = true →
      stat_fails (faults w) (getCacheFilePath env filename) = false →
      ageOf (set_now t2 w) (RegFile (now w) data) < ExpiryThreshold env (set_now t2 w) →
      ∃ w', proxy env filename w = (Return (Send (contentTypeFor filename) data), w')
            ∧ count_fetch (calls w') = S (count_fetch (calls w))
            ∧ readFile w' (getCacheFilePath env filename) = Some data
            ∧ proxy env filename (set_now t2 w')
              = (Return (SendFile (getCacheFilePath env filename)), set_now t2 w').
Proof.
  intros Hnone.
  set (p := getCacheFilePath env filename) in *.
  assert (is_valid env w p = false) as Hmiss.
  { unfold is_valid, lookup_path. rewrite Hnone.
    by destruct (stat_fails (faults w) p). }
  pose proof (proxy_miss env filename w Hmiss) as Hproxy. fold p in Hproxy.
  split.
  - destruct (fetch_result env w filename) as [data|].
    + destruct (can_write (after_fetch env filename w) p).
      * eexists _, _. split; [exact Hproxy|].
        by rewrite count_fetch_after_maybe_sweep, <- (count_fetch_after_fetch env filename).
      * eexists _, _. split; [exact Hproxy|]. apply count_fetch_after_fetch.
    + eexists _, _. split; [exact Hproxy|]. apply count_fetch_after_fetch.
  - intros data t2 Hfetch Hwrite Hstat Hfresh.
    pose proof (ExpiryThreshold_pos env w) as Hpos.
    rewrite Hfetch, can_write_after_fetch, Hwrite in Hproxy.
    set (w' := after_maybe_sweep env (after_write env filename data w)) in *.
    assert (fs w' !! segs p = Some (RegFile (now w) data)) as Hstored.
    { apply maybe_sweep_keeps_valid.
      - unfold after_write. cbn. fold p. apply lookup_insert_eq.
      - unfold ExpiryThreshold in Hpos. cbn. lia. }
    assert (∀ t, lookup_path (set_now t w') p = Some (RegFile (now w) data)) as Hlook.
    { intros t. unfold lookup_path. cbn. subst w'.
      rewrite faults_after_maybe_sweep. cbn. rewrite Hstat.
      fold (after_write env filename data w). rewrite Hstored.
      by rewrite (can_write_no_trailing w p Hwrite). }
    exists w'. repeat split.
    + exact Hproxy.
    + subst w'.
      by rewrite count_fetch_after_maybe_sweep, <- (count_fetch_after_fetch env filename).
    + unfold readFile. specialize (Hlook (now w')).
      replace (set_now (now w') w') with w' in Hlook by by destruct w'.
      by rewrite Hlook.
    + apply proxy_hit. fold p. unfold is_valid. rewrite Hlook. cbn.
      apply Z.ltb_lt. unfold ageOf, ExpiryThreshold in Hfresh. cbn in Hfresh. lia.
Qed.

Lemma cache_miss_fetches_once_then_hits_witness :
  (∃ r w', proxy Scenario.env0 "a.png" Scenario.w_empty = (Return r, w')
           ∧ count_fetch (calls w') = S (count_fetch (calls Scenario.w_empty)))
  ∧ ∃ w', proxy Scenario.env0 "a.png" Scenario.w_empty
            = (Return (Send (contentTypeFor "a.png") Scenario.blob100), w')
          ∧ count_fetch (calls w') = S (count_fetch (calls Scenario.w_empty))
          ∧ readFile w' (getCacheFilePath Scenario.env0 "a.png") = Some Scenario.blob100
          ∧ proxy Scenario.env0 "a.png" (set_now (Scenario.t0 + 1000) w')
            = (Return (SendFile (getCacheFilePath Scenario.env0 "a.png")),
               set_now (Scenario.t0 + 1000) w').
Proof.
  destruct (cache_miss_fetches_once_then_hits Scenario.env0 Scenario.w_empty "a.png")
    as [Honce Hthen].
  - vm_compute. reflexivity.
  - split; [exact Honce|].
    apply (Hthen Scenario.blob100 (Scenario.t0 + 1000)).
    + vm_compute. reflexivity.
    + vm_compute. reflexivity.
    + reflexivity.
    + vm_compute. reflexivity.
Defined.



(** The scenario of the specification: the cache is empty, the budget is 0
    and [a.png] has 100 bytes.  The blob is sent, the sweep runs once since
    [100 > 0], deletes nothing, and the entry stays. *)
Example empty_cache_zero_budget :
  (proxy Scenario.env_tight "a.png" Scenario.w_empty).1
    = Return (Send "image/png" Scenario.blob100)
  ∧ totalSize (cache_stats Scenario.env_tight
                 (after_write Scenario.env_tight "a.png" Scenario.blob100
                    Scenario.w_empty)) = 100
  ∧ SizeBudget Scenario.env_tight = 0
  ∧ count_cleanup (calls (proxy Scenario.env_tight "a.png" Scenario.w_empty).2) = 1%nat
  ∧ fs (proxy Scenario.env_tight "a.png" Scenario.w_empty).2
      !! ["srv"; "upic"; "cache"; "a.png"]
    = Some (RegFile Scenario.t0 Scenario.blob100).
Proof. vm_compute. done. Qed.

(** With the default budget of 1024 MB the same request runs no sweep. *)
Example empty_cache_default_budget :
  count_cleanup (calls (proxy Scenario.env0 "a.png" Scenario.w_empty).2) = 0%nat
  ∧ count_fetch (calls (proxy Scenario.env0 "a.png" Scenario.w_empty).2) = 1%nat.
Proof. vm_compute. done. Qed.

(** * Further properties of the cache and of the proxy route *)

(** What a sweep does to one path: nothing, or it removes an expired regular
    file that lies directly in the cache directory. *)
Lemma lookup_after_cleanup_cases (env : Env) (w : World) (q : list string) :
  fs (cleanupExpiredCacheFiles env w).2 !! q = fs w !! q
  ∨ (fs (cleanupExpiredCacheFiles env w).2 !! q = None
     ∧ ∃ name m d,
         q = (segs (cacheDir env) ++ [name])%list ∧ valid_name name = true
         ∧ fs w !! q = Some (RegFile m d)
         ∧ ExpiryThreshold env w ≤ ageOf w (RegFile m d)).
Proof.
  rewrite fs_after_cleanup, lookup_delete_all.
  case_bool_decide as Hq; [right | by left].
  split; [done|].
  apply list_elem_of_fmap in Hq as (e & -> & [Hu He]%elem_of_removed).
  pose proof (expired_list_path env w e He) as Hpath.
  apply elem_of_expired_list in He as (_ & Hl & He).
  apply elem_of_children in Hl as [Hname _].
  apply expired_entry_Some in He as (_ & _ & n & Hp & Hle & _).
  apply lookup_path_fs in Hp.
  rewrite getCacheFilePath_entry in Hp by done. cbn in Hp.
  unfold can_unlink in Hu. rewrite Hpath in Hu. cbn in Hu. rewrite Hp in Hu.
  destruct n as [m d|m s]; [|by rewrite andb_false_r in Hu].
  exists (ef_name e), m, d. cbn. rewrite Hpath. cbn.
  repeat split; try done.
  unfold ExpiryThreshold, ageOf. cbn in *. lia.
Qed.

(** X1: a sweep creates and changes nothing; what it removes is a regular
    file that lies directly in the cache directory and whose age has reached
    the threshold.  Valid entries, subdirectories and every path outside the
    cache directory are left as they are, and so are the clock, the faults
    and the remote store; the call log gets the one entry of the sweep. *)
Theorem sweep_removes_only_expired_files (env : Env) (w : World) (q : list string) :
  (fs (cleanupExpiredCacheFiles env w).2 !! q = fs w !! q
   ∨ (fs (cleanupExpiredCacheFiles env w).2 !! q = None
      ∧ ∃ name m d,
          q = (segs (cacheDir env) ++ [name])%list ∧ valid_name name = true
          ∧ fs w !! q = Some (RegFile m d)
          ∧ ExpiryThreshold env w ≤ ageOf w (RegFile m d)))
  ∧ now (cleanupExpiredCacheFiles env w).2 = now w
  ∧ faults (cleanupExpiredCacheFiles env w).2 = faults w
  ∧ remote (cleanupExpiredCacheFiles env w).2 = remote w
  ∧ calls (cleanupExpiredCacheFiles env w).2 = CallCleanup :: calls w.
Proof.
  split; [apply lookup_after_cleanup_cases|].
  rewrite cleanupExpiredCacheFiles_eq. cbn [snd]. by repeat split.
Qed.

(** X2: the proxy route always answers, and with one of three answers: the
    cached file, the blob that the remote store returned for the key, or the
    404 error. *)
Theorem proxy_always_answers (env : Env) (w : World) (filename : string) :
  ∃ r w', proxy env filename w = (Return r, w')
    ∧ (r = SendFile (getCacheFilePath env filename)
       ∨ (∃ data, fetch_result env w filename = Some data
                  ∧ r = Send (contentTypeFor filename) data)
       ∨ r = StatusJson 404 "File not found or fetch failed").
Proof.
  destruct (is_valid env w (getCacheFilePath env filename)) eqn:Hv.
  - eexists _, _. split; [by apply proxy_hit|]. by left.
  - rewrite (proxy_miss env filename w Hv).
    destruct (fetch_result env w filename) as [data|].
    + destruct (can_write _ _).
      * eexists _, _. split; [done|]. right. left. by exists data.
      * eexists _, _. split; [done|]. by do 2 right.
    + eexists _, _. split; [done|]. by do 2 right.
Qed.

(** X3: a request for a key leaves every path other than the location of the
    key as it is, except for the expired cache files that its sweep removes:
    it creates and overwrites nothing else. *)
Theorem proxy_touches_only_key_and_expired (env : Env) (w : World)
    (filename : string) (q : list string) :
  q ≠ segs (getCacheFilePath env filename) →
  fs (proxy env filename w).2 !! q = fs w !! q
  ∨ (fs (proxy env filename w).2 !! q = None
     ∧ ∃ name m d,
         q = (segs (cacheDir env) ++ [name])%list
         ∧ fs w !! q = Some (RegFile m d)
         ∧ ExpiryThreshold env w ≤ ageOf w (RegFile m d)).
Proof.
  intros Hq.
  destruct (is_valid env w (getCacheFilePath env filename)) eqn:Hv.
  { rewrite proxy_hit by done. by left. }
  rewrite (proxy_miss env filename w Hv).
  destruct (fetch_result env w filename) as [data|]; [|by left].
  destruct (can_write _ _); [|by left]. cbn [snd].
  assert (fs (after_write env filename data w) !! q = fs w !! q) as Hw.
  { unfold after_write. cbn. by rewrite lookup_insert_ne. }
  unfold after_maybe_sweep.
  destruct (overBudget env _); [|by left].
  destruct (lookup_after_cleanup_cases env (after_write env filename data w) q)
    as [Hsame|(Hgone & name & m & d & -> & _ & Hfile & Hage)].
  - left. by rewrite Hsame.
  - right. split; [done|]. exists name, m, d. rewrite <- Hw. done.
Qed.

Lemma proxy_touches_only_key_and_expired_witness :
  fs (proxy Scenario.env_tight "a.png" Scenario.w0).2
    !! ["srv"; "upic"; "cache"; "old.png"]
  = fs Scenario.w0 !! ["srv"; "upic"; "cache"; "old.png"]
  ∨ (fs (proxy Scenario.env_tight "a.png" Scenario.w0).2
       !! ["srv"; "upic"; "cache"; "old.png"] = None
     ∧ ∃ name m d,
         ["srv"; "upic"; "cache"; "old.png"]
         = (segs (cacheDir Scenario.env_tight) ++ [name])%list
         ∧ fs Scenario.w0 !! ["srv"; "upic"; "cache"; "old.png"] = Some (RegFile m d)
         ∧ ExpiryThreshold Scenario.env_tight Scenario.w0
           ≤ ageOf Scenario.w0 (RegFile m d)).
Proof.
  apply (proxy_touches_only_key_and_expired Scenario.env_tight Scenario.w0 "a.png").
  vm_compute. discriminate.
Defined.

(** X4: keys that are legal file names are stored directly in the cache
    directory, each at a location of its own. *)
Theorem getCacheFilePath_names_apart (env : Env) (a b : string) :
  valid_name a = true → valid_name b = true →
  inside (cacheDir env) (getCacheFilePath env a)
  ∧ (getCacheFilePath env a = getCacheFilePath env b → a = b).
Proof.
  intros Ha Hb. split; [by apply getCacheFilePath_name_inside|].
  rewrite !getCacheFilePath_entry by done.
  intros [= Heq]. by apply app_inj_1 in Heq as [_ [= ->]].
Qed.

Lemma getCacheFilePath_names_apart_witness :
  inside (cacheDir Scenario.env0) (getCacheFilePath Scenario.env0 "a.png")
  ∧ (getCacheFilePath Scenario.env0 "a.png" = getCacheFilePath Scenario.env0 "b.png"
     → "a.png" = "b.png").
Proof.
  apply (getCacheFilePath_names_apart Scenario.env0 "a.png" "b.png");
    vm_compute; reflexivity.
Defined.

(** * Base64 *)

Module Base64Facts.

Import Base64.
Local Open Scope N_scope.

Ltac Zify.zify_post_hook ::= Z.to_euclidean_division_equations.

Lemma b64_val_char (n : N) : n < 64 → b64_val (b64_char n) = Some n.
Proof.
  intros Hn.
  assert (forallb (λ k, bool_decide (b64_val (b64_char (N.of_nat k)) = Some (N.of_nat k)))
            (seq 0 64) = true) as Hall by (vm_compute; reflexivity).
  rewrite forallb_forall in Hall.
  specialize (Hall (N.to_nat n)).
  rewrite N2Nat.id in Hall. eapply bool_decide_eq_true_1, Hall, in_seq. lia.
Qed.

Lemma to_N_lt (a : Byte.byte) : Byte.to_N a < 256.
Proof. pose proof (Byte.to_N_bounded a). lia. Qed.

Lemma byte_of_N_to_N (a : Byte.byte) (n : N) : n = Byte.to_N a → byte_of_N n = a.
Proof.
  intros ->. unfold byte_of_N.
  rewrite N.mod_small by apply to_N_lt. by rewrite Byte.of_to_N.
Qed.

Lemma list_ind3 {A} (P : list A → Prop) :
  P [] → (∀ a, P [a]) → (∀ a b, P [a; b]) →
  (∀ a b c r, P r → P (a :: b :: c :: r)) →
  ∀ l, P l.
Proof.
  intros H0 H1 H2 H3. fix IH 1.
  intros [|a [|b [|c r]]]; [done | done | done |]. apply H3, IH.
Qed.

Lemma sextets_encode_step (a b c : Byte.byte) (r : list Byte.byte) :
  sextets (encode (a :: b :: c :: r))
  = Byte.to_N a / 4
    :: (Byte.to_N a mod 4 * 16 + Byte.to_N b / 16)
    :: (Byte.to_N b mod 16 * 4 + Byte.to_N c / 64)
    :: Byte.to_N c mod 64 :: sextets (encode r).
Proof.
  pose proof (to_N_lt a). pose proof (to_N_lt b). pose proof (to_N_lt c).
  cbn [encode sextets]. rewrite !b64_val_char by lia. done.
Qed.

Lemma decode_encode (l : list Byte.byte) : decode (encode l) = l.
Proof.
  unfold decode. induction l as [|a|a b|a b c r IH] using list_ind3.
  - done.
  - pose proof (to_N_lt a).
    cbn [encode sextets]. rewrite !b64_val_char by lia.
    change (b64_val "=") with (@None N). cbn [bytes_of].
    f_equal. apply byte_of_N_to_N. lia.
  - pose proof (to_N_lt a). pose proof (to_N_lt b).
    cbn [encode sextets]. rewrite !b64_val_char by lia.
    change (b64_val "=") with (@None N). cbn [bytes_of].
    f_equal; [|f_equal]; apply byte_of_N_to_N; lia.
  - pose proof (to_N_lt a). pose proof (to_N_lt b). pose proof (to_N_lt c).
    rewrite sextets_encode_step. cbn [bytes_of]. rewrite IH.
    f_equal; [|f_equal; [|f_equal]]; apply byte_of_N_to_N; lia.
Qed.

Lemma isBase64_char (n : N) (r : string) :
  n < 64 → isBase64 (String (b64_char n) r) = isBase64 r.
Proof.
  intros Hn. cbn [isBase64]. rewrite b64_val_char by done.
  by rewrite bool_decide_eq_true_2 by eauto.
Qed.

Lemma isBase64_encode (l : list Byte.byte) : isBase64 (encode l) = true.
Proof.
  induction l as [|a|a b|a b c r IH] using list_ind3.
  - done.
  - pose proof (to_N_lt a). cbn [encode]. by rewrite !isBase64_char by lia.
  - pose proof (to_N_lt a). pose proof (to_N_lt b).
    cbn [encode]. by rewrite !isBase64_char by lia.
  - pose proof (to_N_lt a). pose proof (to_N_lt b). pose proof (to_N_lt c).
    cbn [encode]. by rewrite !isBase64_char by lia.
Qed.

Lemma encode_empty (l : list Byte.byte) : encode l = "" ↔ l = [].
Proof.
  split; [|by intros ->].
  by destruct l as [|a [|b [|c r]]].
Qed.

Ltac Zify.zify_post_hook ::= idtac.

End Base64Facts.

(** X5: what [toString('base64')] writes passes the check of the upload
    route, and [Buffer.from(..., 'base64')] reads the same bytes back from
    it; the text is empty only for the empty buffer. *)
Theorem base64_round_trip (l : list Byte.byte) :
  Base64.isBase64 (Base64.encode l) = true
  ∧ Base64.decode (Base64.encode l) = l
  ∧ (Base64.encode l = "" ↔ l = []).
Proof.
  split; [apply Base64Facts.isBase64_encode|].
  split; [apply Base64Facts.decode_encode | apply Base64Facts.encode_empty].
Qed.

(** * The access gate *)

Lemma split_no_char (c : ascii) (s : string) :
  has_char c s = false → split c s = [s].
Proof.
  induction s as [|x r IH]; cbn; [done|].
  intros [Hx Hr]%orb_false_iff. rewrite Hx, (IH Hr). done.
Qed.

Lemma split_app_sep (c : ascii) (a b : string) :
  has_char c a = false →
  split c (a ++ String c b)%string = a :: split c b.
Proof.
  induction a as [|x r IH].
  - intros _. change (split c (String c b) = "" :: split c b).
    cbn. by rewrite bool_decide_eq_true_2.
  - intros [Hx Hr]%orb_false_iff.
    change (split c (String x (r ++ String c b)%string) = String x r :: split c b).
    cbn. cbn in Hx. rewrite Hx, (IH Hr). done.
Qed.

Lemma split_fields_no_sep (c : ascii) (s x : string) :
  x ∈ split c s → has_char c x = false.
Proof.
  revert x. induction s as [|y r IH]; cbn; intros x Hx.
  - by apply list_elem_of_singleton in Hx as ->.
  - case_bool_decide as Hy.
    + apply elem_of_cons in Hx as [->|Hx]; [done | by apply IH].
    + destruct (split c r) as [|h t] eqn:Hs.
      * by apply list_elem_of_singleton in Hx as ->; cbn; rewrite bool_decide_eq_false_2.
      * apply elem_of_cons in Hx as [->|Hx].
        -- cbn. rewrite bool_decide_eq_false_2 by done.
           apply IH, list_elem_of_here.
        -- by apply IH, list_elem_of_further.
Qed.

(** X6: when the configured token is not empty and has no space, the gate
    lets through every request whose [Authorization] header has the token as
    its second field; the first field (["Bearer"] or anything else without a
    space) and what follows the token are not looked at. *)
Theorem gate_accepts_token (t scheme rest : string) :
  t ≠ "" → has_char " " t = false → has_char " " scheme = false →
  authenticateToken (Some t) (Some (scheme ++ " " ++ t)%string) = Next
  ∧ authenticateToken (Some t) (Some (scheme ++ " " ++ t ++ " " ++ rest)%string) = Next.
Proof.
  intros Ht Hts Hs.
  assert (∀ tail, split " " tail !! 0%nat = Some t →
            authenticateToken (Some t) (Some (scheme ++ String " " tail)%string) = Next)
    as Hgate.
  { intros tail Htail. unfold authenticateToken, bearerToken.
    assert (split " " (scheme ++ String " " tail)%string !! 1%nat = Some t) as Hfield.
    { by rewrite split_app_sep. }
    destruct (scheme ++ String " " tail)%string as [|x r] eqn:Hh.
    { by destruct scheme. }
    rewrite Hfield. destruct t; [done|]. cbn.
    by rewrite bool_decide_eq_false_2 by (intros H; by apply H). }
  split.
  - apply Hgate. by rewrite split_no_char.
  - apply (Hgate (t ++ String " " rest)%string). by rewrite split_app_sep.
Qed.

Lemma gate_accepts_token_witness :
  authenticateToken (Some "s3cret") (Some ("Bearer" ++ " " ++ "s3cret")%string) = Next
  ∧ authenticateToken (Some "s3cret")
      (Some ("Bearer" ++ " " ++ "s3cret" ++ " " ++ "and more")%string) = Next.
Proof.
  apply (gate_accepts_token "s3cret" "Bearer" "and more");
    [discriminate | reflexivity | reflexivity].
Defined.

(** X7: the gate lets a request through only when the configured token is
    set, not empty and without a space, and the second field of the header
    is that token: with a token that is unset, empty or holds a space, no
    request gets through.  A request that is stopped gets 401 or 403. *)
Theorem gate_passes_only_token (TOKEN authHeader : option string) :
  (authenticateToken TOKEN authHeader = Next
   ∧ ∃ t h, TOKEN = Some t ∧ authHeader = Some h
            ∧ t ≠ "" ∧ has_char " " t = false
            ∧ split " " h !! 1%nat = Some t)
  ∨ authenticateToken TOKEN authHeader = Reject 401 "Access token required"
  ∨ authenticateToken TOKEN authHeader = Reject 403 "Invalid access token".
Proof.
  unfold authenticateToken.
  destruct (falsy (bearerToken authHeader)) eqn:Hf; [by right; left|].
  case_bool_decide as Hne; [by do 2 right|]. left. split; [done|].
  destruct authHeader as [[|x r]|]; [done | | done].
  cbn [bearerToken] in *.
  destruct (split " " (String x r) !! 1%nat) as [t|] eqn:Hfield; [|done].
  exists t, (String x r). repeat split; try done.
  - by intros ->.
  - eapply split_fields_no_sep, list_elem_of_lookup_2, Hfield.
Qed.

(** * The upload route *)

(** ** Strings *)

Lemma app_String (c : ascii) (s r : string) :
  (String c s ++ r)%string = String c (s ++ r)%string.
Proof. done. Qed.

Lemma app_empty_l (r : string) : ("" ++ r)%string = r.
Proof. done. Qed.

Lemma all_chars_app (P : ascii → bool) (a b : string) :
  all_chars P (a ++ b)%string = all_chars P a && all_chars P b.
Proof.
  induction a as [|c r IH]; [done|].
  rewrite app_String. cbn. by rewrite IH, andb_assoc.
Qed.

Lemma all_chars_weaken (P Q : ascii → bool) (s : string) :
  (∀ c, P c = true → Q c = true) → all_chars P s = true → all_chars Q s = true.
Proof.
  intros HPQ. induction s as [|c r IH]; [done|]. cbn.
  intros [Hc Hr]%andb_true_iff. by rewrite (HPQ c Hc), IH.
Qed.

Lemma has_char_app (c : ascii) (a b : string) :
  has_char c (a ++ b)%string = has_char c a || has_char c b.
Proof.
  induction a as [|x r IH]; [done|].
  rewrite app_String. cbn. by rewrite IH, orb_assoc.
Qed.

Lemma has_slash_has_char (s : string) : has_slash s = has_char "/" s.
Proof. induction s as [|c r IH]; [done|]. cbn. by rewrite IH. Qed.

Lemma all_chars_has_char (P : ascii → bool) (c : ascii) (s : string) :
  P c = false → all_chars P s = true → has_char c s = false.
Proof.
  intros Hc. induction s as [|x r IH]; [done|]. cbn.
  intros [Hx Hr]%andb_true_iff. rewrite (IH Hr), orb_false_r.
  apply bool_decide_eq_false_2. intros ->. congruence.
Qed.

(** Two texts that agree, each made of characters of one kind followed by a
    character of another kind, agree part by part. *)
Lemma app_sep_inj (P : ascii → bool) (a a' : string) (c c' : ascii) (r r' : string) :
  all_chars P a = true → all_chars P a' = true → P c = false → P c' = false →
  (a ++ String c r)%string = (a' ++ String c' r')%string →
  a = a' ∧ c = c' ∧ r = r'.
Proof.
  intros Ha Ha' Hc Hc'. revert a' Ha'.
  induction a as [|x s IH]; intros [|x' s'] Ha' Heq.
  - rewrite !app_empty_l in Heq. by injection Heq as -> ->.
  - rewrite app_empty_l, app_String in Heq. injection Heq as -> _.
    cbn in Ha'. apply andb_true_iff in Ha' as [Hx _]. congruence.
  - rewrite app_empty_l, app_String in Heq. injection Heq as -> _.
    cbn in Ha. apply andb_true_iff in Ha as [Hx _]. congruence.
  - rewrite !app_String in Heq. injection Heq as -> Heq.
    cbn in Ha, Ha'. apply andb_true_iff in Ha as [_ Ha].
    apply andb_true_iff in Ha' as [_ Ha'].
    destruct (IH Ha s' Ha' Heq) as (-> & -> & ->). done.
Qed.

(** ** Numbers as text *)

Lemma pretty_N_char_digit (x : N) : is_digit (pretty_N_char x) = true.
Proof. unfold pretty_N_char. by repeat case_match. Qed.

Lemma pretty_N_go_digits (x : N) (s : string) :
  all_chars is_digit s = true → all_chars is_digit (pretty_N_go x s) = true.
Proof.
  revert s. induction (N.lt_wf_0 x) as [x _ IH]; intros s Hs.
  assert (x = 0 ∨ 0 < x)%N as [->|Hx] by lia.
  - by rewrite pretty_N_go_0.
  - rewrite pretty_N_go_step by done. apply IH.
    + by apply N.div_lt.
    + cbn. by rewrite pretty_N_char_digit.
Qed.

Lemma pretty_N_go_nonempty (x : N) (s : string) :
  s ≠ "" → pretty_N_go x s ≠ "".
Proof.
  revert s. induction (N.lt_wf_0 x) as [x _ IH]; intros s Hs.
  assert (x = 0 ∨ 0 < x)%N as [->|Hx] by lia.
  - by rewrite pretty_N_go_0.
  - rewrite pretty_N_go_step by done. apply IH; [by apply N.div_lt | done].
Qed.

Lemma pretty_N_digits (x : N) :
  all_chars is_digit (pretty x) = true ∧ pretty x ≠ "".
Proof.
  unfold pretty, pretty_N. case_decide as Hx; [done|].
  split; [by apply pretty_N_go_digits|].
  rewrite pretty_N_go_step by lia. by apply pretty_N_go_nonempty.
Qed.

(** The decimal text of a number that is not negative is made of digits. *)
Lemma pretty_Z_digits (z : Z) :
  0 ≤ z → all_chars is_digit (pretty z) = true ∧ pretty z ≠ "".
Proof.
  intros Hz. destruct z as [|p|p]; [done | | lia].
  apply (pretty_N_digits (N.pos p)).
Qed.

(** The decimal text of any number is made of digits and a sign. *)
Lemma pretty_Z_chars (z : Z) :
  all_chars is_digit_or_dash (pretty z) = true ∧ pretty z ≠ "".
Proof.
  assert (∀ c, is_digit c = true → is_digit_or_dash c = true) as Hw.
  { intros c Hc. unfold is_digit_or_dash. by rewrite Hc. }
  destruct z as [|p|p]; [done | |].
  - destruct (pretty_N_digits (N.pos p)) as [Hd Hne].
    split; [|done]. by apply (all_chars_weaken is_digit).
  - destruct (pretty_N_digits (N.pos p)) as [Hd Hne].
    split; [|done]. change (pretty (Z.neg p)) with (String "-" (pretty (N.pos p))).
    cbn. by apply (all_chars_weaken is_digit).
Qed.

(** ** Extensions *)

Lemma fromLastDot_None (s : string) :
  fromLastDot s = None → has_char "." s = false.
Proof.
  induction s as [|c r IH]; [done|]. cbn.
  destruct (fromLastDot r); [done|].
  case_bool_decide; [done|]. intros _. by apply IH.
Qed.

Lemma fromLastDot_Some (s e : string) :
  fromLastDot s = Some e →
  ∃ pre e', s = (pre ++ e)%string ∧ e = String "." e' ∧ has_char "." e' = false.
Proof.
  revert e. induction s as [|c r IH]; intros e; cbn; [done|].
  destruct (fromLastDot r) as [e0|] eqn:Hr.
  - intros [= <-]. destruct (IH e0 eq_refl) as (pre & e' & -> & -> & He').
    by exists (String c pre), e'.
  - case_bool_decide as Hc; [|done]. intros [= <-]. subst c.
    exists "", r. repeat split. by apply fromLastDot_None.
Qed.

Lemma basename_no_slash (s : string) : has_char "/" (basename s) = false.
Proof.
  unfold basename.
  destruct (last (filter (λ x, x ≠ "") (split "/" s))) as [x|] eqn:Hl; [|done].
  apply last_Some in Hl as [l' Hl]. cbn.
  apply (split_fields_no_sep "/" s).
  assert (x ∈ filter (λ x, x ≠ "") (split "/" s)) as Hin.
  { rewrite Hl. apply elem_of_app. right. apply list_elem_of_here. }
  by apply list_elem_of_filter in Hin as [_ Hin].
Qed.

(** An extension is empty or starts with its only dot, and holds no
    separator. *)
Lemma extname_shape (s : string) :
  extname s = ""
  ∨ ∃ e', extname s = String "." e'
          ∧ has_char "." e' = false ∧ has_char "/" e' = false.
Proof.
  unfold extname.
  destruct (fromLastDot (basename s)) as [e|] eqn:He; [|by left].
  destruct (_ || _); [by left|]. right.
  destruct (fromLastDot_Some _ _ He) as (pre & e' & Hb & -> & Hdot).
  exists e'. repeat split; [done|].
  pose proof (basename_no_slash s) as Hs.
  rewrite Hb, has_char_app in Hs. apply orb_false_iff in Hs as [_ Hs].
  cbn in Hs. by apply orb_false_iff in Hs as [_ Hs].
Qed.

Lemma uploadExt_shape (name : string) :
  ∃ e', uploadExt name = String "." e'
        ∧ has_char "." e' = false ∧ has_char "/" e' = false.
Proof.
  unfold uploadExt. case_bool_decide as He.
  - by exists "jpg".
  - by destruct (extname_shape name) as [?|?].
Qed.

(** ** The name of the temporary file *)

Lemma uploadName_valid (rnd t : Z) (name : string) :
  valid_name (uploadName rnd t name) = true.
Proof.
  destruct (uploadExt_shape name) as (e' & He & _ & Hslash).
  destruct (pretty_Z_chars t) as [Ht Htne].
  destruct (pretty_Z_chars rnd) as [Hr _].
  assert (has_slash (uploadName rnd t name) = false) as Hns.
  { rewrite has_slash_has_char. unfold uploadName.
    rewrite !has_char_app, He. cbn. rewrite Hslash.
    by rewrite (all_chars_has_char is_digit_or_dash "/" _ eq_refl Ht),
      (all_chars_has_char is_digit_or_dash "/" _ eq_refl Hr). }
  unfold valid_name. rewrite Hns. cbn.
  unfold uploadName.
  destruct (pretty t) as [|c r] eqn:Hp; [done|].
  cbn in Ht. apply andb_true_iff in Ht as [Hc _].
  rewrite app_String.
  rewrite !bool_decide_eq_true_2; [done | | |].
  - intros [= -> _]. done.
  - intros [= -> _]. done.
  - done.
Qed.

Lemma ends_with_slash_app (a b : string) :
  b ≠ "" → ends_with_slash (a ++ b)%string = ends_with_slash b.
Proof.
  intros Hb. induction a as [|c r IH]; [done|].
  rewrite app_String. cbn.
  destruct (r ++ b)%string eqn:Hrb; [|done].
  destruct r; [|done]. by rewrite app_empty_l in Hrb.
Qed.

Lemma normalizeString_snoc_plain (l : list string) (seg : string) :
  plain seg → normalizeString (l ++ [seg]) = (normalizeString l ++ [seg])%list.
Proof.
  intros Hseg. rewrite normalizeString_snoc, normalizeStep_plain by done.
  cbn. by rewrite rev_involutive.
Qed.

Lemma tmpPath_entry (uenv : UploadEnv) (n : string) :
  valid_name n = true →
  tmpPath uenv n = mkPath (segs (tmpDir uenv) ++ [n]) false.
Proof.
  intros Hn. unfold tmpPath, tmpDir, join. cbn [segs].
  pose proof (valid_name_no_slash n Hn) as Hslash.
  assert (n ≠ "") as Hne by (by destruct (valid_name_plain n Hn)).
  f_equal.
  - change ("tmp/" ++ n)%string with ("tmp" ++ String "/" n)%string.
    rewrite split_app_sep by done. rewrite split_no_slash by done.
    change (split "/" "tmp") with ["tmp"].
    change (dirname (core uenv) ++ ["tmp"; n])%list
      with (dirname (core uenv) ++ [ "tmp" ] ++ [n])%list.
    rewrite app_assoc.
    rewrite !normalizeString_snoc_plain;
      [done | by repeat split | by apply valid_name_plain].
  - rewrite ends_with_slash_app by done. by apply ends_with_slash_no_slash.
Qed.

Lemma compressed_name_valid (n : string) :
  valid_name n = true → valid_name ("compressed-" ++ n)%string = true.
Proof.
  intros Hn. pose proof (valid_name_no_slash n Hn) as Hs.
  rewrite has_slash_has_char in Hs. unfold valid_name.
  rewrite has_slash_has_char, has_char_app, Hs.
  change ("compressed-" ++ n)%string with (String "c" ("ompressed-" ++ n)%string).
  by rewrite !bool_decide_eq_true_2.
Qed.

(** X8: whatever file name the request gives, the temporary file of an
    upload, and the output of its compression, lie directly in the [tmp]
    directory: of the file name only the extension is used, and an extension
    holds no separator. *)
Theorem upload_file_stays_in_tmp (uenv : UploadEnv) (rnd t : Z) (name : string) :
  tmpPath uenv (uploadName rnd t name)
    = mkPath (segs (tmpDir uenv) ++ [uploadName rnd t name]) false
  ∧ inside (tmpDir uenv) (tmpPath uenv (uploadName rnd t name))
  ∧ inside (tmpDir uenv)
      (tmpPath uenv ("compressed-" ++ uploadName rnd t name)%string).
Proof.
  pose proof (uploadName_valid rnd t name) as Hv.
  split; [by apply tmpPath_entry|]. split.
  - eexists [_]. split; [done|]. by rewrite tmpPath_entry.
  - eexists [_]. split; [done|].
    by rewrite tmpPath_entry by by apply compressed_name_valid.
Qed.

(** X9: two uploads get the same temporary name only when they are served
    in the same millisecond, draw the same random number and have the same
    extension. *)
Theorem upload_names_collide_only_if (rnd rnd' t t' : Z) (name name' : string) :
  0 ≤ t → 0 ≤ t' → 0 ≤ rnd → 0 ≤ rnd' →
  uploadName rnd t name = uploadName rnd' t' name' →
  t = t' ∧ rnd = rnd' ∧ uploadExt name = uploadExt name'.
Proof.
  intros Ht Ht' Hr Hr' Heq. unfold uploadName in Heq.
  destruct (uploadExt_shape name) as (e & He & _).
  destruct (uploadExt_shape name') as (e' & He' & _).
  rewrite He, He' in *.
  destruct (pretty_Z_digits t Ht) as [Hdt _].
  destruct (pretty_Z_digits t' Ht') as [Hdt' _].
  destruct (pretty_Z_digits rnd Hr) as [Hdr _].
  destruct (pretty_Z_digits rnd' Hr') as [Hdr' _].
  apply (app_sep_inj is_digit) in Heq as (Hpt & _ & Heq); try done.
  apply (app_sep_inj is_digit) in Heq as (Hpr & _ & ->); try done.
  repeat split; by apply (inj pretty).
Qed.

Lemma upload_names_collide_only_if_witness :
  1717113600000 = 1717113600000 ∧ 42 = 42
  ∧ uploadExt "a/photo.jpg" = uploadExt "holiday"%string.
Proof.
  apply (upload_names_collide_only_if 42 42 1717113600000 1717113600000
           "a/photo.jpg" "holiday"); [lia | lia | lia | lia |].
  vm_compute. reflexivity.
Defined.

(** ** The steps of an upload *)

Section UploadSteps.

Variable uenv : UploadEnv.
Variable rnd : Z.
Variable pngquant : list Byte.byte → pngquant_result.
Variable github : PutRequest → put_answer.

Lemma parent_is_dir_tmp (w : World) (n : string) :
  valid_name n = true → dir_at w (segs (tmpDir uenv)) = true →
  parent_is_dir w (tmpPath uenv n) = true.
Proof.
  intros Hn Hdir. unfold parent_is_dir. rewrite tmpPath_entry by done.
  cbn [segs]. rewrite removelast_last.
  unfold dir_at in Hdir.
  destruct (segs (tmpDir uenv)) as [|x l] eqn:Ht.
  - done.
  - by destruct (fs w !! (x :: l)) as [[]|].
Qed.

Lemma tmp_lookup_ne_dir (n : string) :
  valid_name n = true → segs (tmpPath uenv n) ≠ segs (tmpDir uenv).
Proof.
  intros Hn. rewrite tmpPath_entry by done. cbn [segs].
  intros Heq. apply (f_equal length) in Heq. rewrite length_app in Heq.
  cbn in Heq. lia.
Qed.

Lemma tmp_paths_differ (n : string) :
  valid_name n = true →
  segs (tmpPath uenv ("compressed-" ++ n)%string) ≠ segs (tmpPath uenv n).
Proof.
  intros Hn. rewrite !tmpPath_entry by (done || by apply compressed_name_valid).
  cbn [segs]. intros [_ [= Heq]]%app_inj_1; [|done].
  apply (f_equal String.length) in Heq.
  change ("compressed-" ++ n)%string with (String "c" ("ompressed-" ++ n)%string) in Heq.
  assert (∀ a b, String.length (a ++ b)%string
            = (String.length a + String.length b)%nat) as Hlen.
  { intros a b. induction a as [|c r IH]; [done|]. rewrite app_String. cbn. by rewrite IH. }
  cbn in Heq. rewrite Hlen in Heq. cbn in Heq. lia.
Qed.

Lemma lookup_path_regular (w : World) (p : path) (m : Z) (d : list Byte.byte) :
  stat_fails (faults w) p = false → trailing p = false →
  fs w !! segs p = Some (RegFile m d) →
  lookup_path w p = Some (RegFile m d).
Proof. intros Hs Ht Hf. unfold lookup_path. by rewrite Hs, Hf, Ht. Qed.

Lemma compress_step (w : World) (n : string) (buf : list Byte.byte) :
  valid_name n = true → tmp_ready uenv w n →
  try_catch
    (execPngquant pngquant (tmpPath uenv ("compressed-" ++ n)%string) (tmpPath uenv n);;
     ex ← existsSync (tmpPath uenv ("compressed-" ++ n)%string);
     if (ex : bool)
     then renameSync (tmpPath uenv ("compressed-" ++ n)%string) (tmpPath uenv n)
     else mret ())
    (λ compressError, mret ())
    (with_tmp_file uenv w n buf)
  = (Return (),
     with_tmp_file uenv w n
       (match pngquant buf with QuantOutput d => d | _ => buf end)).
Proof.
  intros Hn (Hdir & Hp & Hpc & Hwp & Hwpc & Hsp & Hspc & Hupc).
  pose proof (compressed_name_valid n Hn) as Hnc.
  pose proof (tmp_paths_differ n Hn) as Hne.
  set (p := tmpPath uenv n) in *.
  set (pc := tmpPath uenv ("compressed-" ++ n)%string) in *.
  assert (trailing p = false) as Htp by (subst p; by rewrite tmpPath_entry).
  assert (trailing pc = false) as Htpc by (subst pc; by rewrite tmpPath_entry).
  set (w1 := with_tmp_file uenv w n buf).
  assert (fs w1 !! segs p = Some (RegFile (now w) buf)) as Hw1p.
  { subst w1. unfold with_tmp_file. cbn. by rewrite lookup_insert_eq. }
  assert (fs w1 !! segs pc = None) as Hw1pc.
  { subst w1. unfold with_tmp_file. cbn. by rewrite lookup_insert_ne. }
  assert (readFile w1 p = Some buf) as Hread.
  { unfold readFile. by rewrite (lookup_path_regular w1 p (now w) buf). }
  unfold try_catch, mbind, JS_bind, execPngquant. rewrite Hread.
  destruct (pngquant buf) as [| |d] eqn:Hq; [done | |].
  - unfold existsSync, lookup_path. cbn [faults]. fold w1.
    rewrite Hw1pc. cbn. by rewrite Hspc.
  - assert (can_write w1 pc = true) as Hcw.
    { unfold can_write. rewrite Hw1pc, Htpc. cbn [faults]. subst w1. cbn [faults with_tmp_file set_fs].
      rewrite Hwpc. cbn. rewrite andb_true_r.
      apply parent_is_dir_tmp; [done|].
      unfold dir_at in *. cbn.
      rewrite lookup_insert_ne; [done|]. by apply tmp_lookup_ne_dir. }
    rewrite Hcw, bool_decide_eq_true_2 by done. cbn [andb].
    set (w2 := set_fs _ w1).
    assert (fs w2 !! segs pc = Some (RegFile (now w) d)) as Hw2pc.
    { subst w2. cbn. by rewrite lookup_insert_eq. }
    assert (fs w2 !! segs p = Some (RegFile (now w) buf)) as Hw2p.
    { subst w2. cbn. rewrite lookup_insert_ne by done. exact Hw1p. }
    unfold existsSync.
    rewrite (lookup_path_regular w2 pc (now w) d) by done.
    rewrite bool_decide_eq_true_2 by eauto.
    unfold renameSync. rewrite Hw2pc.
    assert (can_unlink w2 pc = true) as Hcu.
    { unfold can_unlink. rewrite Hw2pc, Htpc. cbn [faults]. subst w2 w1. cbn. 
      by rewrite Hupc. }
    assert (can_write w2 p = true) as Hcw2.
    { unfold can_write. rewrite Hw2p, Htp. subst w2 w1. cbn [faults with_tmp_file set_fs].
      rewrite Hwp. cbn. rewrite andb_true_r.
      apply parent_is_dir_tmp; [done|].
      unfold dir_at in *. cbn.
      rewrite !lookup_insert_ne; [done | | ]; by apply tmp_lookup_ne_dir. }
    rewrite Hcu, Hcw2. cbn [andb]. f_equal.
    subst w2 w1. unfold with_tmp_file, set_fs. cbn. f_equal.
    fold p pc. rewrite delete_insert_eq, delete_insert_ne by done.
    rewrite (delete_id _ _ Hpc). by rewrite insert_insert_eq.
Qed.

Lemma falsy_Some (s : string) : s ≠ "" → falsy (Some s) = false.
Proof. by destruct s. Qed.

Lemma uploadToGitHub_eq (w : World) (p : path) (n : string) (d : list Byte.byte) :
  readFile w p = Some d →
  if put_accepted uenv github n d
  then uploadToGitHub uenv github p n w = (Return (cdnUrl uenv n), w)
  else ∃ e, uploadToGitHub uenv github p n w = (Throw e, w).
Proof.
  intros Hread. unfold put_accepted, put_request, uploadToGitHub, cdnUrl.
  destruct (GITHUB_TOKEN uenv) as [token|]; [|by eexists].
  destruct (GITHUB_REPO (core uenv)) as [repoSpec|]; [|by eexists].
  destruct (SITE_PREFIX uenv) as [prefix|]; [|by eexists].
  destruct (falsy (Some token) || falsy (Some repoSpec) || falsy (Some prefix));
    [by eexists|].
  unfold mbind, JS_bind, readFileSync. rewrite Hread.
  destruct (github _); by eauto.
Qed.

Lemma upload_run (w : World) (data name : string) :
  data ≠ "" → name ≠ "" → Base64.isBase64 data = true →
  tmp_ready uenv w (uploadName rnd (now w) name) →
  upload uenv rnd pngquant github (Some (mkUploadBody (Some data) (Some name))) w
  = if put_accepted uenv github (uploadName rnd (now w) name)
         (stored_bytes pngquant name (Base64.decode data))
       && negb (unlink_fails (faults w) (tmpPath uenv (uploadName rnd (now w) name)))
    then (Return (JsonData (cdnUrl uenv (uploadName rnd (now w) name))), w)
    else (Return (JsonData (localUrl uenv (uploadName rnd (now w) name))),
          with_tmp_file uenv w (uploadName rnd (now w) name)
            (stored_bytes pngquant name (Base64.decode data))).
Proof.
  intros Hdata Hname Hb64 Hready.
  pose proof (uploadName_valid rnd (now w) name) as Hn.
  set (n := uploadName rnd (now w) name) in *.
  set (buf := Base64.decode data).
  set (stored := stored_bytes pngquant name buf).
  pose proof Hready as (Hdir & Hp & Hpc & Hwp & Hwpc & Hsp & Hspc & Hupc).
  set (p := tmpPath uenv n) in *.
  assert (trailing p = false) as Htp by (subst p; by rewrite tmpPath_entry).
  unfold upload. cbn [file fileName].
  rewrite !falsy_Some by done. cbn [orb default from_option]. unfold id.
  rewrite Hb64. cbn [negb].
  unfold try_catch at 1. unfold mbind at 1, JS_bind at 1. unfold Date_now at 1.
  fold n. fold p.
  unfold mbind at 1, JS_bind at 1, writeFileSync at 1.
  assert (can_write w p = true) as Hcw.
  { unfold can_write. rewrite Hp, Htp, Hwp. cbn. rewrite andb_true_r.
    by apply parent_is_dir_tmp. }
  rewrite Hcw. fold buf.
  change (set_fs (<[segs p:=RegFile (now w) buf]> (fs w)) w)
    with (with_tmp_file uenv w n buf).
  unfold mbind at 1, JS_bind at 1.
  assert ((if bool_decide (toLowerCase (uploadExt name) = ".png")
           then
             try_catch
               (execPngquant pngquant (tmpPath uenv ("compressed-" ++ n)%string) p;;
                ex ← existsSync (tmpPath uenv ("compressed-" ++ n)%string);
                if (ex : bool)
                then renameSync (tmpPath uenv ("compressed-" ++ n)%string) p
                else mret ())
               (λ compressError, mret ())
           else mret ()) (with_tmp_file uenv w n buf)
          = (Return (), with_tmp_file uenv w n stored)) as ->.
  { subst stored. unfold stored_bytes. case_bool_decide; [|done].
    by apply compress_step. }
  set (w3 := with_tmp_file uenv w n stored).
  assert (fs w3 !! segs p = Some (RegFile (now w) stored)) as Hw3p.
  { subst w3. unfold with_tmp_file. cbn. by rewrite lookup_insert_eq. }
  assert (lookup_path w3 p = Some (RegFile (now w) stored)) as Hlook.
  { by apply lookup_path_regular. }
  unfold mbind at 1, JS_bind at 1, stat at 1. rewrite Hlook.
  unfold try_catch at 1. unfold mbind at 1, JS_bind at 1.
  assert (readFile w3 p = Some stored) as Hread by (unfold readFile; by rewrite Hlook).
  pose proof (uploadToGitHub_eq w3 p n stored Hread) as Hup.
  destruct (put_accepted uenv github n stored).
  - rewrite Hup. unfold mbind, JS_bind, unlink, can_unlink.
    rewrite Hw3p, Htp. cbn [faults negb andb].
    destruct (unlink_fails (faults w3) p) eqn:Hu.
    + subst w3. cbn in Hu. rewrite Hu. done.
    + subst w3. cbn in Hu. rewrite Hu. cbn. f_equal.
      unfold with_tmp_file, set_fs. cbn. fold p.
      rewrite delete_insert_eq, (delete_id _ _ Hp). by destruct w.
  - destruct Hup as [e ->]. done.
Qed.

End UploadSteps.

(** X10: an upload that GitHub takes answers with the public address of the
    file, [SITE_PREFIX] followed by the generated name, and leaves the server
    as it found it: the temporary file is gone again.  GitHub gets the bytes
    of the request, or what [pngquant] made of them for a [.png] name. *)
Theorem upload_success_reclaims_tmp (uenv : UploadEnv) (rnd : Z)
    (pngquant : list Byte.byte → pngquant_result)
    (github : PutRequest → put_answer)
    (w : World) (data name : string) (req : PutRequest) :
  data ≠ "" → name ≠ "" → Base64.isBase64 data = true →
  tmp_ready uenv w (uploadName rnd (now w) name) →
  put_request uenv (uploadName rnd (now w) name)
    (stored_bytes pngquant name (Base64.decode data)) = Some req →
  github req = PutCreated →
  unlink_fails (faults w) (tmpPath uenv (uploadName rnd (now w) name)) = false →
  upload uenv rnd pngquant github (Some (mkUploadBody (Some data) (Some name))) w
  = (Return (JsonData (default "" (SITE_PREFIX uenv) ++ uploadName rnd (now w) name)%string),
     w)
  ∧ Base64.decode (put_content req) = stored_bytes pngquant name (Base64.decode data).
Proof.
  intros Hdata Hname Hb64 Hready Hreq Hput Hunlink.
  split.
  - rewrite upload_run by done.
    unfold put_accepted. by rewrite Hreq, Hput, Hunlink.
  - unfold put_request in Hreq. repeat case_match; try done.
    injection Hreq as <-. cbn. apply Base64Facts.decode_encode.
Qed.

Lemma upload_success_reclaims_tmp_witness :
  upload UploadScenario.uenv0 7 UploadScenario.quant2 UploadScenario.github_ok
    (Some (mkUploadBody (Some "iVBORw==") (Some "shot.PNG"))) UploadScenario.w_up
  = (Return (JsonData (default "" (SITE_PREFIX UploadScenario.uenv0)
                         ++ uploadName 7 (now UploadScenario.w_up) "shot.PNG")%string),
     UploadScenario.w_up)
  ∧ Base64.decode (put_content UploadScenario.req_shot)
    = stored_bytes UploadScenario.quant2 "shot.PNG" (Base64.decode "iVBORw==").
Proof.
  apply (upload_success_reclaims_tmp UploadScenario.uenv0 7 UploadScenario.quant2
           UploadScenario.github_ok UploadScenario.w_up "iVBORw==" "shot.PNG"
           UploadScenario.req_shot);
    [discriminate | discriminate | reflexivity
    | vm_compute; repeat split; reflexivity
    | vm_compute; reflexivity | reflexivity | reflexivity].
Defined.

(** X11: when GitHub does not take the file (no answer, an answer that is
    not 2xx, a body that is not JSON, or a variable missing from the
    environment) the upload still answers 200, with an address on
    [localhost] under [/tmp/], and the temporary file stays in the [tmp]
    directory with the bytes that were to be sent. *)
Theorem upload_falls_back_to_local_url (uenv : UploadEnv) (rnd : Z)
    (pngquant : list Byte.byte → pngquant_result)
    (github : PutRequest → put_answer)
    (w : World) (data name : string) :
  data ≠ "" → name ≠ "" → Base64.isBase64 data = true →
  tmp_ready uenv w (uploadName rnd (now w) name) →
  put_accepted uenv github (uploadName rnd (now w) name)
    (stored_bytes pngquant name (Base64.decode data)) = false →
  ∃ w',
    upload uenv rnd pngquant github (Some (mkUploadBody (Some data) (Some name))) w
    = (Return (JsonData ("http://localhost:" ++ PORT uenv ++ "/tmp/"
                           ++ uploadName rnd (now w) name)%string), w')
    ∧ readFile w' (tmpPath uenv (uploadName rnd (now w) name))
      = Some (stored_bytes pngquant name (Base64.decode data))
    ∧ ∀ q, q ≠ segs (tmpPath uenv (uploadName rnd (now w) name)) →
           fs w' !! q = fs w !! q.
Proof.
  intros Hdata Hname Hb64 Hready Hput.
  rewrite upload_run by done. rewrite Hput. cbn [andb].
  eexists. split; [done|].
  destruct Hready as (_ & _ & _ & _ & _ & Hsp & _).
  split.
  - unfold readFile.
    erewrite lookup_path_regular; [done | done | |].
    + pose proof (uploadName_valid rnd (now w) name) as Hn.
      by rewrite tmpPath_entry.
    + unfold with_tmp_file. cbn. by rewrite lookup_insert_eq.
  - intros q Hq. unfold with_tmp_file. cbn. by rewrite lookup_insert_ne.
Qed.

Lemma upload_falls_back_to_local_url_witness :
  ∃ w',
    upload UploadScenario.uenv0 7 UploadScenario.quant2 UploadScenario.github_down
      (Some (mkUploadBody (Some "iVBORw==") (Some "shot.PNG"))) UploadScenario.w_up
    = (Return (JsonData ("http://localhost:" ++ PORT UploadScenario.uenv0 ++ "/tmp/"
                           ++ uploadName 7 (now UploadScenario.w_up) "shot.PNG")%string),
       w')
    ∧ readFile w' (tmpPath UploadScenario.uenv0
                     (uploadName 7 (now UploadScenario.w_up) "shot.PNG"))
      = Some (stored_bytes UploadScenario.quant2 "shot.PNG" (Base64.decode "iVBORw=="))
    ∧ ∀ q, q ≠ segs (tmpPath UploadScenario.uenv0
                       (uploadName 7 (now UploadScenario.w_up) "shot.PNG")) →
           fs w' !! q = fs UploadScenario.w_up !! q.
Proof.
  apply (upload_falls_back_to_local_url UploadScenario.uenv0 7 UploadScenario.quant2
           UploadScenario.github_down UploadScenario.w_up "iVBORw==" "shot.PNG");
    [discriminate | discriminate | reflexivity
    | vm_compute; repeat split; reflexivity
    | vm_compute; reflexivity].
Defined.

(** X12: when GitHub has taken the file but the temporary file cannot be
    removed, the upload answers with the [localhost] address, not with the
    public one, and the temporary file stays. *)
Theorem upload_unlink_failure_hides_public_url (uenv : UploadEnv) (rnd : Z)
    (pngquant : list Byte.byte → pngquant_result)
    (github : PutRequest → put_answer)
    (w : World) (data name : string) :
  data ≠ "" → name ≠ "" → Base64.isBase64 data = true →
  tmp_ready uenv w (uploadName rnd (now w) name) →
  put_accepted uenv github (uploadName rnd (now w) name)
    (stored_bytes pngquant name (Base64.decode data)) = true →
  unlink_fails (faults w) (tmpPath uenv (uploadName rnd (now w) name)) = true →
  upload uenv rnd pngquant github (Some (mkUploadBody (Some data) (Some name))) w
  = (Return (JsonData ("http://localhost:" ++ PORT uenv ++ "/tmp/"
                         ++ uploadName rnd (now w) name)%string),
     with_tmp_file uenv w (uploadName rnd (now w) name)
       (stored_bytes pngquant name (Base64.decode data))).
Proof.
  intros Hdata Hname Hb64 Hready Hput Hunlink.
  rewrite upload_run by done. by rewrite Hput, Hunlink.
Qed.

Lemma upload_unlink_failure_hides_public_url_witness :
  upload UploadScenario.uenv0 7 UploadScenario.quant2 UploadScenario.github_ok
    (Some (mkUploadBody (Some "iVBORw==") (Some "shot.PNG"))) UploadScenario.w_stuck
  = (Return (JsonData ("http://localhost:" ++ PORT UploadScenario.uenv0 ++ "/tmp/"
                         ++ uploadName 7 (now UploadScenario.w_stuck) "shot.PNG")%string),
     with_tmp_file UploadScenario.uenv0 UploadScenario.w_stuck
       (uploadName 7 (now UploadScenario.w_stuck) "shot.PNG")
       (stored_bytes UploadScenario.quant2 "shot.PNG" (Base64.decode "iVBORw=="))).
Proof.
  apply (upload_unlink_failure_hides_public_url UploadScenario.uenv0 7
           UploadScenario.quant2 UploadScenario.github_ok UploadScenario.w_stuck
           "iVBORw==" "shot.PNG");
    [discriminate | discriminate | reflexivity
    | vm_compute; repeat split; reflexivity
    | vm_compute; reflexivity | vm_compute; reflexivity].
Defined.

(** ** What the upload route may change *)

Lemma changes_only_refl (qs : list (list string)) (w : World) : changes_only qs w w.
Proof. by repeat split. Qed.

Lemma changes_only_trans (qs : list (list string)) (w1 w2 w3 : World) :
  changes_only qs w1 w2 → changes_only qs w2 w3 → changes_only qs w1 w3.
Proof.
  intros (Hn & Hf & Hr & Hc & Hq) (Hn' & Hf' & Hr' & Hc' & Hq').
  repeat split; try congruence.
  intros q Hnot. by rewrite Hq', Hq.
Qed.

Lemma changes_only_weaken (qs qs' : list (list string)) (w w' : World) :
  qs ⊆ qs' → changes_only qs w w' → changes_only qs' w w'.
Proof.
  intros Hsub (Hn & Hf & Hr & Hc & Hq). repeat split; try done.
  intros q Hnot. apply Hq. intros Hin. by apply Hnot, Hsub.
Qed.

Lemma touches_weaken {A} (qs qs' : list (list string)) (m : JS A) :
  qs ⊆ qs' → touches qs m → touches qs' m.
Proof. intros Hsub Hm w. by eapply changes_only_weaken. Qed.

Lemma touches_ret {A} (qs : list (list string)) (a : A) : touches qs (mret a).
Proof. intros w. apply changes_only_refl. Qed.

Lemma touches_throw {A} (qs : list (list string)) (e : exn) : touches qs (@throw A e).
Proof. intros w. apply changes_only_refl. Qed.

Lemma touches_bind {A B} (qs : list (list string)) (m : JS A) (f : A → JS B) :
  touches qs m → (∀ a, touches qs (f a)) → touches qs (m ≫= f).
Proof.
  intros Hm Hf w. unfold mbind, JS_bind. specialize (Hm w).
  destruct (m w) as [[a|e] w']; cbn in *; [|done].
  eapply changes_only_trans; [done | apply Hf].
Qed.

Lemma touches_try {A} (qs : list (list string)) (m : JS A) (h : exn → JS A) :
  touches qs m → (∀ e, touches qs (h e)) → touches qs (try_catch m h).
Proof.
  intros Hm Hh w. unfold try_catch. specialize (Hm w).
  destruct (m w) as [[a|e] w']; cbn in *; [done|].
  eapply changes_only_trans; [done | apply Hh].
Qed.

Lemma touches_stat (p : path) : touches [] (stat p).
Proof. intros w. unfold stat. destruct (lookup_path w p); apply changes_only_refl. Qed.

Lemma touches_existsSync (p : path) : touches [] (existsSync p).
Proof. intros w. apply changes_only_refl. Qed.

Lemma touches_readFileSync (p : path) : touches [] (readFileSync p).
Proof. intros w. unfold readFileSync. destruct (readFile w p); apply changes_only_refl. Qed.

Lemma touches_writeFileSync (p : path) (d : list Byte.byte) :
  touches [segs p] (writeFileSync p d).
Proof.
  intros w. unfold writeFileSync.
  destruct (can_write w p); [|apply changes_only_refl].
  repeat split; try done. intros q Hq. cbn.
  rewrite lookup_insert_ne; [done|]. set_solver.
Qed.

Lemma touches_unlink (p : path) : touches [segs p] (unlink p).
Proof.
  intros w. unfold unlink.
  destruct (can_unlink w p); [|apply changes_only_refl].
  repeat split; try done. intros q Hq. cbn.
  rewrite lookup_delete_ne; [done|]. set_solver.
Qed.

Lemma touches_renameSync (src dst : path) :
  touches [segs src; segs dst] (renameSync src dst).
Proof.
  intros w. unfold renameSync.
  destruct (fs w !! segs src); [|apply changes_only_refl].
  destruct (_ && _); [|apply changes_only_refl].
  repeat split; try done. intros q Hq. cbn.
  rewrite lookup_insert_ne, lookup_delete_ne; [done | |]; set_solver.
Qed.

Lemma js_post_ret {A} (a : A) (w : World)
    (Qr : A → World → Prop) (Qt : exn → World → Prop) :
  Qr a w → js_post (mret a) w Qr Qt.
Proof. done. Qed.

Lemma js_post_throw {A} (e : exn) (w : World)
    (Qr : A → World → Prop) (Qt : exn → World → Prop) :
  Qt e w → js_post (throw e) w Qr Qt.
Proof. done. Qed.

Lemma js_post_bind {A B} (m : JS A) (f : A → JS B) (w : World)
    (Qr : B → World → Prop) (Qt : exn → World → Prop) :
  js_post m w (λ a w', js_post (f a) w' Qr Qt) Qt → js_post (m ≫= f) w Qr Qt.
Proof.
  unfold js_post, mbind, JS_bind. by destruct (m w) as [[a|e] w'].
Qed.

Lemma js_post_try {A} (m : JS A) (h : exn → JS A) (w : World)
    (Qr : A → World → Prop) (Qt : exn → World → Prop) :
  js_post m w Qr (λ e w', js_post (h e) w' Qr Qt) → js_post (try_catch m h) w Qr Qt.
Proof.
  unfold js_post, try_catch. by destruct (m w) as [[a|e] w'].
Qed.

(** One list of paths lies in another. *)
Ltac sublist_solve :=
  let x := fresh "x" in
  let Hx := fresh "Hx" in
  intros x Hx; rewrite ?elem_of_cons, ?elem_of_nil in *; tauto.

(** A step that touches some of the paths [qs0] keeps what held from [w0]. *)
Lemma js_post_step {A} (qs0 qs : list (list string)) (m : JS A) (w0 w : World)
    (Qr : A → World → Prop) (Qt : exn → World → Prop) :
  touches qs m → qs ⊆ qs0 → changes_only qs0 w0 w →
  (∀ a w', changes_only qs0 w0 w' → Qr a w') →
  (∀ e w', changes_only qs0 w0 w' → Qt e w') →
  js_post m w Qr Qt.
Proof.
  intros Hm Hsub H0 Hr Ht. unfold js_post. specialize (Hm w).
  assert (changes_only qs0 w0 (m w).2) as Hw.
  { eapply changes_only_trans; [done|]. by eapply changes_only_weaken. }
  destruct (m w) as [[a|e] w']; cbn in *; eauto.
Qed.

Section UploadFrame.

Variable uenv : UploadEnv.
Variable rnd : Z.
Variable pngquant : list Byte.byte → pngquant_result.
Variable github : PutRequest → put_answer.

Lemma touches_execPngquant (out inp : path) :
  touches [segs out] (execPngquant pngquant out inp).
Proof.
  intros w. unfold execPngquant.
  destruct (readFile w inp); [|apply changes_only_refl].
  destruct (pngquant _); try apply changes_only_refl.
  destruct (_ && _); [|apply changes_only_refl].
  repeat split; try done. intros q Hq. cbn.
  rewrite lookup_insert_ne; [done|]. set_solver.
Qed.

Lemma js_post_uploadToGitHub (p : path) (n : string) (w : World)
    (Qr : string → World → Prop) (Qt : exn → World → Prop) :
  Qr (cdnUrl uenv n) w → (∀ e, Qt e w) →
  js_post (uploadToGitHub uenv github p n) w Qr Qt.
Proof.
  intros Hr Ht. unfold js_post, uploadToGitHub, cdnUrl in *.
  destruct (GITHUB_TOKEN uenv) as [token|]; [|apply Ht].
  destruct (GITHUB_REPO (core uenv)) as [repoSpec|]; [|apply Ht].
  destruct (SITE_PREFIX uenv) as [prefix|]; [|apply Ht].
  destruct (_ || _); [apply Ht|].
  unfold mbind, JS_bind, readFileSync.
  destruct (readFile w p); [|apply Ht].
  destruct (github _); try apply Ht. exact Hr.
Qed.

(** The compression step touches the two files of the upload only. *)
Lemma touches_compress (n : string) :
  touches [segs (tmpPath uenv n); segs (tmpPath uenv ("compressed-" ++ n)%string)]
    (try_catch
       (execPngquant pngquant (tmpPath uenv ("compressed-" ++ n)%string) (tmpPath uenv n);;
        ex ← existsSync (tmpPath uenv ("compressed-" ++ n)%string);
        if (ex : bool)
        then renameSync (tmpPath uenv ("compressed-" ++ n)%string) (tmpPath uenv n)
        else mret ())
       (λ compressError, mret ())).
Proof.
  apply touches_try; [|intros; apply touches_ret].
  apply touches_bind.
  { eapply touches_weaken; [|apply touches_execPngquant]. sublist_solve. }
  intros _. apply touches_bind.
  { eapply touches_weaken; [|apply touches_existsSync]. sublist_solve. }
  intros [|]; [|apply touches_ret].
  eapply touches_weaken; [|apply touches_renameSync]. sublist_solve.
Qed.

Lemma upload_post (body : option UploadBody) (w : World) :
  let data := default "" (body ≫= file) in
  let n := uploadName rnd (now w) (default "" (body ≫= fileName)) in
  js_post (upload uenv rnd pngquant github body) w
    (λ r w',
       changes_only
         [segs (tmpPath uenv n); segs (tmpPath uenv ("compressed-" ++ n)%string)] w w'
       ∧ if falsy (body ≫= file) || falsy (body ≫= fileName)
         then r = JsonError 400 "Missing file or fileName" ∧ w' = w
         else if Base64.isBase64 data
         then r = JsonError 500 "Failed to process base64 upload"
              ∨ r = JsonData (cdnUrl uenv n) ∨ r = JsonData (localUrl uenv n)
         else r = JsonError 500 "Failed to process base64 upload" ∧ w' = w)
    (λ _ _, False).
Proof.
  intros data n.
  set (qs := [segs (tmpPath uenv n); segs (tmpPath uenv ("compressed-" ++ n)%string)]).
  destruct body as [b|]; [|split; [apply changes_only_refl | done]].
  subst data n. cbn [mbind option_bind] in *.
  set (data := default "" (file b)) in *.
  set (name := default "" (fileName b)) in *.
  set (n := uploadName rnd (now w) name) in *.
  unfold upload.
  destruct (falsy (file b) || falsy (fileName b)) eqn:Hf;
    [split; [apply changes_only_refl | done]|].
  fold data name. apply js_post_try.
  destruct (Base64.isBase64 data) eqn:Hb; cbn [negb];
    [|split; [apply changes_only_refl | done]].
  assert (∀ w', changes_only qs w w' →
            js_post (mret (JsonError 500 "Failed to process base64 upload")) w'
              (λ r w'0, changes_only qs w w'0
                 ∧ (r = JsonError 500 "Failed to process base64 upload"
                    ∨ r = JsonData (cdnUrl uenv n) ∨ r = JsonData (localUrl uenv n)))
              (λ _ _, False)) as Hfail.
  { intros w' Hw'. split; [done | by left]. }
  apply js_post_bind. unfold js_post at 1, Date_now. fold n.
  apply js_post_bind.
  eapply (js_post_step qs); [apply touches_writeFileSync | subst qs; sublist_solve
    | apply changes_only_refl | | by intros; apply Hfail].
  intros _ w1 Hw1. apply js_post_bind.
  eapply (js_post_step qs (if bool_decide (toLowerCase (uploadExt name) = ".png")
                           then qs else []));
    [ | subst qs; case_bool_decide; sublist_solve | done | | by intros; apply Hfail].
  { case_bool_decide; [apply touches_compress | apply touches_ret]. }
  intros _ w2 Hw2. apply js_post_bind.
  eapply (js_post_step qs); [apply touches_stat | subst qs; sublist_solve | done | 
    | by intros; apply Hfail].
  intros _ w3 Hw3. apply js_post_try. apply js_post_bind.
  apply js_post_uploadToGitHub.
  - apply js_post_bind.
    eapply (js_post_step qs); [apply touches_unlink | subst qs; sublist_solve | done | |].
    + intros _ w4 Hw4. split; [done|]. right. by left.
    + intros _ w4 Hw4. split; [done|]. right. by right.
  - intros _. split; [done|]. right. by right.
Qed.

End UploadFrame.

(** X13: the upload route always answers.  It answers 400 exactly when the
    body, the file or the file name is missing or empty, and then it changes
    nothing; it answers 500, again without a change, when the file is not
    base64 text; otherwise it answers 500 or gives the public or the
    [localhost] address of the name it generated. *)
Theorem upload_always_answers (uenv : UploadEnv) (rnd : Z)
    (pngquant : list Byte.byte → pngquant_result)
    (github : PutRequest → put_answer)
    (body : option UploadBody) (w : World) :
  ∃ r w',
    upload uenv rnd pngquant github body w = (Return r, w')
    ∧ if falsy (body ≫= file) || falsy (body ≫= fileName)
      then r = JsonError 400 "Missing file or fileName" ∧ w' = w
      else if Base64.isBase64 (default "" (body ≫= file))
      then r = JsonError 500 "Failed to process base64 upload"
           ∨ r = JsonData (cdnUrl uenv
                   (uploadName rnd (now w) (default "" (body ≫= fileName))))
           ∨ r = JsonData (localUrl uenv
                   (uploadName rnd (now w) (default "" (body ≫= fileName))))
      else r = JsonError 500 "Failed to process base64 upload" ∧ w' = w.
Proof.
  pose proof (upload_post uenv rnd pngquant github body w) as H.
  cbv zeta in H. unfold js_post in H.
  destruct (upload uenv rnd pngquant github body w) as [[r|e] w']; [|done].
  exists r, w'. split; [done|]. apply H.
Qed.



(** * The test client and the server *)

Lemma bearer_passes (t : string) :
  t ≠ "" → has_char " " t = false →
  authenticateToken (Some t) (Some ("Bearer " ++ t)%string) = Next.
Proof.
  intros Ht Hs.
  assert (bearerToken (Some ("Bearer " ++ t)%string) = Some t) as Hfield.
  { change (split " " ("Bearer" ++ String " " t)%string !! 1%nat = Some t).
    rewrite (split_app_sep " " "Bearer" t eq_refl).
    by rewrite (split_no_char " " t Hs). }
  unfold authenticateToken. rewrite Hfield, falsy_Some by done.
  by rewrite bool_decide_eq_false_2 by (intros H; by apply H).
Qed.

(** X15: the request of the test client goes through the whole server.
    When the client and the server read the same token, not empty and
    without a space, and the file of the client is not empty, the request
    passes the gate and the checks of the upload route, and what the route
    stores and sends on are the bytes of the client's file (or what
    [pngquant] made of them), under a name that keeps the extension of the
    file. *)
Theorem client_upload_end_to_end (uenv : UploadEnv) (rnd : Z)
    (pngquant : list Byte.byte → pngquant_result)
    (github : PutRequest → put_answer)
    (t imagePath : string) (buf : list Byte.byte) (wc w : World) :
  TOKEN uenv = Some t → t ≠ "" → has_char " " t = false →
  readFile wc (resolve imagePath) = Some buf → buf ≠ [] →
  basename imagePath ≠ "" →
  tmp_ready uenv w (uploadName rnd (now w) (basename imagePath)) →
  ∃ req,
    clientRequest (Some t) imagePath wc = (Return (Some req), wc)
    ∧ apiUpload uenv rnd pngquant github (authorization req) (payload req) w
      = if put_accepted uenv github (uploadName rnd (now w) (basename imagePath))
             (stored_bytes pngquant (basename imagePath) buf)
           && negb (unlink_fails (faults w)
                      (tmpPath uenv (uploadName rnd (now w) (basename imagePath))))
        then (Return (JsonData (cdnUrl uenv
                        (uploadName rnd (now w) (basename imagePath)))), w)
        else (Return (JsonData (localUrl uenv
                        (uploadName rnd (now w) (basename imagePath)))),
              with_tmp_file uenv w (uploadName rnd (now w) (basename imagePath))
                (stored_bytes pngquant (basename imagePath) buf)).
Proof.
  intros Htok Ht Hsp Hread Hbuf Hbase Hready.
  eexists. split.
  - unfold clientRequest, try_catch, mbind, JS_bind, existsSync, readFileSync.
    assert (is_Some (lookup_path wc (resolve imagePath))) as Hex.
    { unfold readFile in Hread. by destruct (lookup_path wc (resolve imagePath)). }
    rewrite bool_decide_eq_true_2 by done. cbn [negb]. rewrite Hread.
    reflexivity.
  - cbn [authorization payload default]. unfold apiUpload.
    rewrite Htok, bearer_passes by done.
    rewrite upload_run; try done.
    + by rewrite Base64Facts.decode_encode.
    + by rewrite Base64Facts.encode_empty.
    + apply Base64Facts.isBase64_encode.
Qed.

Lemma client_upload_end_to_end_witness :
  ∃ req,
    clientRequest (Some "s3cret") "/home/me/shot.PNG" UploadScenario.w_up
    = (Return (Some req), UploadScenario.w_up)
    ∧ apiUpload UploadScenario.uenv0 7 UploadScenario.quant2 UploadScenario.github_ok
        (authorization req) (payload req) UploadScenario.w_up
      = if put_accepted UploadScenario.uenv0 UploadScenario.github_ok
             (uploadName 7 (now UploadScenario.w_up) (basename "/home/me/shot.PNG"))
             (stored_bytes UploadScenario.quant2 (basename "/home/me/shot.PNG")
                Scenario.png)
           && negb (unlink_fails (faults UploadScenario.w_up)
                      (tmpPath UploadScenario.uenv0
                         (uploadName 7 (now UploadScenario.w_up)
                            (basename "/home/me/shot.PNG"))))
        then (Return (JsonData (cdnUrl UploadScenario.uenv0
                        (uploadName 7 (now UploadScenario.w_up)
                           (basename "/home/me/shot.PNG")))), UploadScenario.w_up)
        else (Return (JsonData (localUrl UploadScenario.uenv0
                        (uploadName 7 (now UploadScenario.w_up)
                           (basename "/home/me/shot.PNG")))),
              with_tmp_file UploadScenario.uenv0 UploadScenario.w_up
                (uploadName 7 (now UploadScenario.w_up) (basename "/home/me/shot.PNG"))
                (stored_bytes UploadScenario.quant2 (basename "/home/me/shot.PNG")
                   Scenario.png)).
Proof.
  apply (client_upload_end_to_end UploadScenario.uenv0 7 UploadScenario.quant2
           UploadScenario.github_ok "s3cret" "/home/me/shot.PNG" Scenario.png
           UploadScenario.w_up UploadScenario.w_up);
    [reflexivity | discriminate | reflexivity | vm_compute; reflexivity
    | discriminate | vm_compute; discriminate
    | vm_compute; repeat split; reflexivity].
Defined.

(** * What the statistics count and what a sweep reports *)

Section Accounting.

Variable env : Env.

Lemma omap_ext_in {A B} (f g : A → option B) (l : list A) :
  (∀ x, x ∈ l → f x = g x) → omap f l = omap g l.
Proof.
  induction l as [|a l IH]; intros H; [done|]. cbn.
  rewrite (H a) by apply list_elem_of_here.
  rewrite IH; [done|]. intros x Hx. by apply H, list_elem_of_further.
Qed.

Lemma foldr_add_perm (l l' : list Z) :
  l ≡ₚ l' → foldr Z.add 0 l = foldr Z.add 0 l'.
Proof. induction 1; cbn; lia. Qed.

Lemma foldr_add_app (l l' : list Z) :
  foldr Z.add 0 (l ++ l') = foldr Z.add 0 l + foldr Z.add 0 l'.
Proof. induction l as [|a l IH]; cbn; lia. Qed.

Lemma listing_delete (w : World) (name : string) (n : node) :
  valid_name name = true →
  fs w !! (segs (cacheDir env) ++ [name])%list = Some n →
  listing env w
  ≡ₚ name :: listing env
               (set_fs (delete (segs (cacheDir env) ++ [name])%list (fs w)) w).
Proof.
  intros Hn Hk. unfold listing, children. cbn [fs set_fs].
  rewrite <- (map_to_list_delete (fs w) _ _ Hk).
  rewrite fmap_cons. cbn [omap list_omap fst].
  by rewrite (proj2 (child_Some _ _ name) (conj eq_refl Hn)).
Qed.

(** One file less: the sizes that [getCacheStats] adds up lose the size of
    the file. *)
Lemma stat_sizes_delete (w : World) (name : string) (m : Z) (d : list Byte.byte) :
  valid_name name = true →
  fs w !! (segs (cacheDir env) ++ [name])%list = Some (RegFile m d) →
  stat_fails (faults w) (getCacheFilePath env name) = false →
  stat_sizes env w (listing env w)
  ≡ₚ size (stats_of (RegFile m d))
     :: stat_sizes env
          (set_fs (delete (segs (cacheDir env) ++ [name])%list (fs w)) w)
          (listing env
             (set_fs (delete (segs (cacheDir env) ++ [name])%list (fs w)) w)).
Proof.
  intros Hn Hk Hs.
  set (k := (segs (cacheDir env) ++ [name])%list) in *.
  set (w' := set_fs (delete k (fs w)) w).
  unfold stat_sizes at 1. rewrite (listing_delete w name _ Hn Hk). fold k w'.
  cbn [omap list_omap].
  assert (lookup_path w (getCacheFilePath env name) = Some (RegFile m d)) as ->.
  { unfold lookup_path. rewrite Hs, getCacheFilePath_entry by done. cbn [segs trailing].
    fold k. by rewrite Hk. }
  cbn. constructor. unfold stat_sizes.
  erewrite omap_ext_in; [done|].
  intros file [Hv [n' Hin]]%elem_of_children. cbn beta. f_equal.
  unfold lookup_path. cbn [faults fs set_fs w'].
  rewrite getCacheFilePath_entry by done. cbn [segs trailing].
  destruct (decide (k = (segs (cacheDir env) ++ [file])%list)) as [Heq|Hne].
  - subst w'. cbn in Hin. rewrite <- Heq in Hin. by rewrite lookup_delete_eq in Hin.
  - by rewrite lookup_delete_ne.
Qed.

(** What the sweep removes was counted: a regular file that [stat] finds,
    with the size the enumeration recorded. *)
Lemma removed_counted (w : World) (e : ExpiredFile) :
  e ∈ removed w (expired_list env w) →
  valid_name (ef_name e) = true
  ∧ segs (ef_path e) = (segs (cacheDir env) ++ [ef_name e])%list
  ∧ stat_fails (faults w) (getCacheFilePath env (ef_name e)) = false
  ∧ ∃ m d, fs w !! segs (ef_path e) = Some (RegFile m d)
           ∧ ef_size e = size (stats_of (RegFile m d)).
Proof.
  intros [Hu He]%elem_of_removed.
  pose proof (expired_list_path env w e He) as Hpath.
  apply elem_of_expired_list in He as (_ & Hl & He).
  apply elem_of_children in Hl as [Hname _].
  apply expired_entry_Some in He as (_ & Hp & n & Hlook & _ & Hsize).
  split; [done|]. split; [by rewrite Hpath|]. split.
  { unfold lookup_path in Hlook.
    by destruct (stat_fails (faults w) (getCacheFilePath env (ef_name e))). }
  apply lookup_path_fs in Hlook. rewrite <- Hp in Hlook.
  unfold can_unlink in Hu. rewrite Hlook in Hu.
  destruct n as [m d|m s]; [|by rewrite andb_false_r in Hu].
  by exists m, d.
Qed.

Lemma stat_sizes_delete_all (w : World) (l : list ExpiredFile) :
  NoDup ((segs ∘ ef_path) <$> l) →
  (∀ e, e ∈ l → e ∈ removed w (expired_list env w)) →
  stat_sizes env w (listing env w)
  ≡ₚ (ef_size <$> l)
     ++ stat_sizes env (set_fs (delete_all l (fs w)) w)
          (listing env (set_fs (delete_all l (fs w)) w)).
Proof.
  induction l as [|e l IH]; intros Hnd Hall.
  { change (delete_all [] (fs w)) with (fs w). by rewrite set_fs_id. }
  rewrite fmap_cons in Hnd. apply NoDup_cons in Hnd as [Hnotin Hnd].
  rewrite IH; [|done | by intros e' He'; apply Hall, list_elem_of_further].
  destruct (removed_counted w e (Hall e (list_elem_of_here _ _)))
    as (Hname & Hpath & Hstat & m & d & Hfile & Hsize).
  set (w1 := set_fs (delete_all l (fs w)) w).
  assert (fs w1 !! (segs (cacheDir env) ++ [ef_name e])%list = Some (RegFile m d)) as Hk.
  { subst w1. cbn [fs set_fs]. rewrite lookup_delete_all, <- Hpath.
    by rewrite bool_decide_eq_false_2. }
  rewrite (stat_sizes_delete w1 (ef_name e) m d Hname Hk Hstat).
  rewrite fmap_cons, Hsize, delete_all_cons, Hpath.
  by rewrite <- Permutation_middle.
Qed.

Lemma cache_stats_after_sweep (w : World) :
  let l := removed w (expired_list env w) in
  totalFiles (cache_stats env (cleanupExpiredCacheFiles env w).2)
  = totalFiles (cache_stats env w) - Z.of_nat (length l)
  ∧ totalSize (cache_stats env (cleanupExpiredCacheFiles env w).2)
    = totalSize (cache_stats env w) - sum_sizes l.
Proof.
  intros l. rewrite cleanupExpiredCacheFiles_eq. cbn [snd]. fold l.
  change (cache_stats env (set_fs (delete_all l (fs w)) (log_call CallCleanup w)))
    with (cache_stats env (set_fs (delete_all l (fs w)) w)).
  unfold cache_stats. cbn [faults set_fs].
  destruct (readdir_fails (faults w) (cacheDir env)) eqn:Hr.
  { subst l. unfold expired_list. rewrite Hr. done. }
  cbn [totalFiles totalSize].
  assert (NoDup ((segs ∘ ef_path) <$> l)) as Hnd.
  { subst l. unfold removed.
    eapply sublist_NoDup; [apply (NoDup_expired_list env w)|].
    apply fmap_sublist, sublist_filter. }
  pose proof (stat_sizes_delete_all w l Hnd (λ e He, He)) as Hperm.
  rewrite (Permutation_length Hperm), (foldr_add_perm _ _ Hperm).
  rewrite length_app, foldr_add_app, length_fmap. unfold sum_sizes. lia.
Qed.

End Accounting.

(** X16: the statistics follow the sweep.  Whatever fails, the number of
    files and the number of bytes that [getCacheStats] reports after a sweep
    are those it reported before, less the [deletedCount] and the
    [freedSpace] that the sweep returned. *)
Theorem sweep_lowers_stats_by_its_report (env : Env) (w : World) :
  ∃ stats cleanup newStats w',
    getCacheStats env w = (Return stats, w)
    ∧ cleanupExpiredCacheFiles env w = (Return cleanup, w')
    ∧ getCacheStats env w' = (Return newStats, w')
    ∧ totalFiles newStats = totalFiles stats - deletedCount cleanup
    ∧ totalSize newStats = totalSize stats - freedSpace cleanup.
Proof.
  destruct (cache_stats_after_sweep env w) as [Hfiles Hsize].
  rewrite cleanupExpiredCacheFiles_eq in *. cbn [snd] in *.
  eexists _, _, _, _. rewrite !getCacheStats_eq.
  repeat split; done.
Qed.

(** X17: the sweep at start-up never fails, so that its [catch] is never
    entered: it runs one sweep, and it reads the statistics a second time
    exactly when the sweep deleted something; these are then the first ones
    less what the sweep reported.  When nothing was deleted, no file
    changed. *)
Theorem startup_sweep_completes (env : Env) (w : World) :
  ∃ stats cleanup after w',
    startupCleanup env w = (Return (Some (stats, cleanup, after)), w')
    ∧ calls w' = CallCleanup :: calls w
    ∧ match after with
      | Some newStats =>
          0 < deletedCount cleanup
          ∧ totalFiles newStats = totalFiles stats - deletedCount cleanup
          ∧ totalSize newStats = totalSize stats - freedSpace cleanup
      | None => deletedCount cleanup = 0 ∧ fs w' = fs w
      end.
Proof.
  destruct (cache_stats_after_sweep env w) as [Hfiles Hsize].
  unfold startupCleanup, try_catch.
  unfold mbind at 1, JS_bind at 1. rewrite getCacheStats_eq.
  unfold mbind at 1, JS_bind at 1.
  rewrite cleanupExpiredCacheFiles_eq in *. cbn [snd deletedCount] in *.
  destruct (0 <? Z.of_nat (length (removed w (expired_list env w)))) eqn:Hpos.
  - unfold mbind, JS_bind. rewrite getCacheStats_eq.
    eexists _, _, _, _. split; [done|]. split; [done|].
    cbn [deletedCount freedSpace]. repeat split; try done. lia.
  - eexists _, _, _, _. split; [done|]. split; [done|].
    cbn [deletedCount]. apply Z.ltb_ge in Hpos.
    destruct (removed w (expired_list env w)) as [|e l]; [done|].
    cbn [length] in Hpos. lia.
Qed.

(** * From the upload route to the proxy route *)

Lemma fromLastDot_no_dot (s : string) :
  has_char "." s = false → fromLastDot s = None.
Proof.
  induction s as [|c r IH]; [done|]. cbn.
  intros [Hc Hr]%orb_false_iff. by rewrite (IH Hr), Hc.
Qed.

Lemma fromLastDot_app_dot (pre e' : string) :
  has_char "." e' = false →
  fromLastDot (pre ++ String "." e')%string = Some (String "." e').
Proof.
  intros He. induction pre as [|c r IH].
  - rewrite app_empty_l. cbn. by rewrite (fromLastDot_no_dot e' He).
  - rewrite app_String. cbn. by rewrite IH.
Qed.

Lemma basename_whole (s : string) :
  has_slash s = false → s ≠ "" → basename s = s.
Proof.
  intros Hs Hne. unfold basename. rewrite split_no_slash by done.
  by rewrite filter_cons_True, filter_nil.
Qed.

Lemma string_app_assoc (a b c : string) :
  ((a ++ b) ++ c)%string = (a ++ b ++ c)%string.
Proof. induction a as [|x r IH]; [done|]. by rewrite !app_String, IH. Qed.

Lemma length_string_app (a b : string) :
  String.length (a ++ b)%string = (String.length a + String.length b)%nat.
Proof.
  induction a as [|c r IH]; [done|]. rewrite app_String. cbn. by rewrite IH.
Qed.

Lemma extname_app_dot (c : ascii) (r e' : string) :
  c ≠ "."%char → has_char "/" (String c r) = false →
  has_char "." e' = false → has_char "/" e' = false →
  extname (String c r ++ String "." e')%string = String "." e'.
Proof.
  intros Hc Hpre Hdot Hslash. unfold extname.
  rewrite basename_whole.
  - rewrite fromLastDot_app_dot by done.
    rewrite bool_decide_eq_false_2.
    + rewrite bool_decide_eq_false_2; [done|].
      rewrite app_String. intros [= -> _]. done.
    + rewrite length_string_app. cbn. lia.
  - rewrite has_slash_has_char, has_char_app, Hpre. cbn. by rewrite Hslash.
  - by rewrite app_String.
Qed.

Lemma extname_uploadName (rnd t : Z) (name : string) :
  extname (uploadName rnd t name) = uploadExt name.
Proof.
  destruct (uploadExt_shape name) as (e' & He & Hdot & Hslash).
  destruct (pretty_Z_chars t) as [Ht Htne].
  destruct (pretty_Z_chars rnd) as [Hr _].
  unfold uploadName. rewrite He.
  destruct (pretty t) as [|c r] eqn:Hp; [done|].
  assert (String c r ++ "-" ++ pretty rnd ++ String "." e'
          = String c (r ++ "-" ++ pretty rnd) ++ String "." e')%string as ->.
  { change (String c (r ++ "-" ++ pretty rnd))%string
      with (String c r ++ "-" ++ pretty rnd)%string.
    by rewrite !string_app_assoc. }
  apply extname_app_dot; try done.
  - cbn in Ht. apply andb_true_iff in Ht as [Hc _]. by intros ->.
  - change (String c (r ++ "-" ++ pretty rnd))%string
      with (String c r ++ "-" ++ pretty rnd)%string.
    rewrite !has_char_app.
    rewrite (all_chars_has_char is_digit_or_dash "/" _ eq_refl Ht),
      (all_chars_has_char is_digit_or_dash "/" _ eq_refl Hr). done.
Qed.

(** X18: the name an upload generates keeps the extension the route chose,
    so that the proxy route serves the file under the content type of the
    name the client gave, and as [image/jpeg] when that name had no
    extension. *)
Theorem uploaded_name_keeps_content_type (rnd t : Z) (name : string) :
  extname (uploadName rnd t name) = uploadExt name
  ∧ contentTypeFor (uploadName rnd t name)
    = if bool_decide (extname name = "") then "image/jpeg" else contentTypeFor name.
Proof.
  split; [apply extname_uploadName|].
  unfold contentTypeFor. rewrite extname_uploadName. unfold uploadExt.
  destruct (bool_decide (extname name = "")); [by vm_compute | done].
Qed.

(** * The check of the environment at start-up *)

(** X19: once the check at start-up has found no variable missing, the
    checks that [uploadToGitHub] and [fetchFromGitHubRaw] make again never
    fire: neither throws its error about the environment. *)
Theorem startup_check_covers_later_checks (uenv : UploadEnv)
    (github : PutRequest → put_answer) (p : path) (n filename : string)
    (w : World) :
  missingEnvVars uenv = [] →
  (uploadToGitHub uenv github p n w).1
    ≠ Throw (Error "Missing GitHub environment variables")
  ∧ (fetchFromGitHubRaw (core uenv) filename w).1
    ≠ Throw (Error "GITHUB_REPO environment variable not set").
Proof.
  unfold missingEnvVars. intros Hm.
  destruct (falsy (GITHUB_TOKEN uenv)) eqn:Ht; [done|].
  destruct (falsy (GITHUB_REPO (core uenv))) eqn:Hr; [done|].
  destruct (falsy (SITE_PREFIX uenv)) eqn:Hs; [done|].
  split.
  - unfold uploadToGitHub.
    destruct (GITHUB_TOKEN uenv) as [token|]; [|done].
    destruct (GITHUB_REPO (core uenv)) as [repoSpec|]; [|done].
    destruct (SITE_PREFIX uenv) as [prefix|]; [|done].
    rewrite Ht, Hr, Hs. cbn [orb].
    unfold mbind, JS_bind, readFileSync.
    destruct (readFile w p); [|done].
    by destruct (github _).
  - unfold fetchFromGitHubRaw, invoked, mbind, JS_bind.
    destruct (GITHUB_REPO (core uenv)) as [[|c r]|]; [done | | done].
    unfold fetch. destruct (remote _ _) as [resp|]; [|done].
    by destruct (negb (ok resp)).
Qed.

Lemma startup_check_covers_later_checks_witness :
  (uploadToGitHub UploadScenario.uenv0 UploadScenario.github_down
     (UploadScenario.in_tmp "none") "none" UploadScenario.w_up).1
    ≠ Throw (Error "Missing GitHub environment variables")
  ∧ (fetchFromGitHubRaw (core UploadScenario.uenv0) "a.png" UploadScenario.w_up).1
    ≠ Throw (Error "GITHUB_REPO environment variable not set").
Proof.
  apply (startup_check_covers_later_checks UploadScenario.uenv0
           UploadScenario.github_down (UploadScenario.in_tmp "none") "none" "a.png"
           UploadScenario.w_up).
  reflexivity.
Defined.

(** * The two routes side by side *)

Lemma segs_in_dirname (base : list string) (d : string) :
  valid_name d = true →
  segs (join base d) = (normalizeString base ++ [d])%list.
Proof.
  intros Hd. unfold join. cbn [segs].
  rewrite split_no_slash by by apply valid_name_no_slash.
  apply normalizeString_snoc_plain. by apply valid_name_plain.
Qed.

Lemma tmp_not_in_cache (uenv : UploadEnv) (n : string) (rest : list string) :
  valid_name n = true →
  segs (tmpPath uenv n) ≠ (segs (cacheDir (core uenv)) ++ rest)%list.
Proof.
  intros Hn. rewrite tmpPath_entry by done. cbn [segs].
  unfold tmpDir, cacheDir. rewrite !segs_in_dirname by done.
  rewrite <- !app_assoc. intros Heq. by apply app_inv_head in Heq.
Qed.

(** X20: an upload leaves the cache alone.  Whatever the request, every
    path in or below the cache directory is after the upload as it was
    before, and the validity test of the proxy route gives for every key the
    answer it gave before. *)
Theorem upload_leaves_cache_alone (uenv : UploadEnv) (rnd : Z)
    (pngquant : list Byte.byte → pngquant_result)
    (github : PutRequest → put_answer)
    (body : option UploadBody) (w : World) (rest : list string) (key : string) :
  valid_name key = true →
  fs (upload uenv rnd pngquant github body w).2
    !! (segs (cacheDir (core uenv)) ++ rest)%list
  = fs w !! (segs (cacheDir (core uenv)) ++ rest)%list
  ∧ (isCacheValid (core uenv) (getCacheFilePath (core uenv) key)
       (upload uenv rnd pngquant github body w).2).1
    = (isCacheValid (core uenv) (getCacheFilePath (core uenv) key) w).1.
Proof.
  intros Hkey.
  pose proof (upload_post uenv rnd pngquant github body w) as H.
  cbv zeta in H. unfold js_post in H.
  destruct (upload uenv rnd pngquant github body w) as [[r|e] w']; [|done].
  destruct H as [(Hn & Hf & Hr & Hc & Hq) _]. cbn [snd].
  pose proof (uploadName_valid rnd (now w) (default "" (body ≫= fileName))) as Hv.
  assert (∀ rest', fs w' !! (segs (cacheDir (core uenv)) ++ rest')%list
                   = fs w !! (segs (cacheDir (core uenv)) ++ rest')%list) as Hsame.
  { intros rest'. apply Hq. intros Hin.
    apply elem_of_cons in Hin as [Hin|Hin].
    - symmetry in Hin. by apply tmp_not_in_cache in Hin.
    - apply list_elem_of_singleton in Hin. symmetry in Hin.
      by apply tmp_not_in_cache in Hin; [|apply compressed_name_valid]. }
  split; [apply Hsame|].
  rewrite !isCacheValid_eq. cbn [fst]. f_equal.
  unfold is_valid, lookup_path. rewrite Hn, Hf.
  rewrite getCacheFilePath_entry by done. cbn [segs].
  by rewrite Hsame.
Qed.

Lemma upload_leaves_cache_alone_witness :
  fs (upload UploadScenario.uenv0 7 UploadScenario.quant2 UploadScenario.github_down
        (Some (mkUploadBody (Some "iVBORw==") (Some "shot.PNG"))) UploadScenario.w_up).2
    !! (segs (cacheDir (core UploadScenario.uenv0)) ++ ["new.png"])%list
  = fs UploadScenario.w_up
      !! (segs (cacheDir (core UploadScenario.uenv0)) ++ ["new.png"])%list
  ∧ (isCacheValid (core UploadScenario.uenv0)
       (getCacheFilePath (core UploadScenario.uenv0) "new.png")
       (upload UploadScenario.uenv0 7 UploadScenario.quant2 UploadScenario.github_down
          (Some (mkUploadBody (Some "iVBORw==") (Some "shot.PNG")))
          UploadScenario.w_up).2).1
    = (isCacheValid (core UploadScenario.uenv0)
         (getCacheFilePath (core UploadScenario.uenv0) "new.png")
         UploadScenario.w_up).1.
Proof.
  apply (upload_leaves_cache_alone UploadScenario.uenv0 7 UploadScenario.quant2
           UploadScenario.github_down
           (Some (mkUploadBody (Some "iVBORw==") (Some "shot.PNG")))
           UploadScenario.w_up ["new.png"] "new.png").
  reflexivity.
Defined.
